(** * rofi-media, package mpris: the endpoint state-synchronisation core

    A shallow embedding of [mpris/enum.go], the metadata decoder
    ([decodeMetadata]) and [mpris/player.go]: the typed cache of one
    media-player endpoint, the change batches applied to it, the
    capability-gated control operations and the listener loop started by
    [Register]. *)

From Stdlib Require Import ZArith String Ascii.
From stdpp Require Import gmap strings list fin_maps.

Local Open Scope string_scope.
Local Open Scope list_scope.
Local Open Scope Z_scope.

(** ** Values carried by the bus

    [dbus.Variant.Value()] returns a Go [any]; what the code does with it
    is a type assertion, so the dynamic type is the constructor.  Only
    [VString], [VBool], [VInt64], [VStrings] ([[]string]) and [VDict]
    ([map[string]dbus.Variant]) are ever asserted by the package; the other
    constructors stand for the dynamic types every assertion rejects. *)

#[local] Set Warnings "-register-all".

Inductive any : Type :=
  | VString (s : string)
  | VBool (b : bool)
  | VInt32 (n : Z)
  | VInt64 (n : Z)
  | VUint64 (n : Z)
  | VObjectPath (s : string)
  | VStrings (l : list string)
  | VSlice (l : list any)
  | VDict (m : gmap string any).

(** A [dbus.Variant] is a value with its signature; [Value()] projects the
    value. *)
Abbreviation Variant := any (only parsing).
Definition Value (v : Variant) : any := v.

(** ** Errors

    [errors.New] makes a fresh error value; [fmt.Errorf] with [%w] wraps its
    argument, with [%s] it only prints the argument's text into the new
    message. *)

Inductive error : Type :=
  | errors_New (text : string)
  | Errorf_s (prefix : string) (e : error)
  | Errorf_w (prefix : string) (e : error).

Fixpoint Error (e : error) : string :=
  match e with
  | errors_New text => text
  | Errorf_s prefix e' => prefix +:+ ": " +:+ Error e'
  | Errorf_w prefix e' => prefix +:+ ": " +:+ Error e'
  end.

Definition ErrUnsupported : error := errors_New "unsupported".
Definition ErrNotImplemented : error := errors_New "not implemented".
Definition ErrInvalidDestination : error := errors_New "destination is not valid".

(** ** Machine integers *)

(** Go's conversion to [int8]: keep the low 8 bits, read as two's
    complement. *)
Definition int8 (z : Z) : Z := (z + 128) mod 256 - 128.

(** 64-bit signed wrap-around, as [int64] multiplication has it. *)
Definition int64 (z : Z) : Z := (z + 2 ^ 63) mod 2 ^ 64 - 2 ^ 63.

(** [time.Microsecond] in [time.Duration] units (nanoseconds). *)
Definition time_Microsecond : Z := 1000.

(** [strings.Join]. *)
Definition strings_Join (elems : list string) (sep : string) : string :=
  String.concat sep elems.

(** ** enum.go *)

Definition PlaybackStatus : Type := string.
Definition PlaybackStatusPaused : PlaybackStatus := "Paused".
Definition PlaybackStatusPlaying : PlaybackStatus := "Playing".
Definition PlaybackStatusStopped : PlaybackStatus := "Stopped".

Definition PlaybackStatus_IsValid (e : PlaybackStatus) : bool :=
  if decide (e = PlaybackStatusPaused) then true
  else if decide (e = PlaybackStatusPlaying) then true
  else if decide (e = PlaybackStatusStopped) then true
  else false.

Definition LoopStatus : Type := string.
Definition LoopStatusNone : LoopStatus := "None".
Definition LoopStatusTrack : LoopStatus := "Track".
Definition LoopStatusPlaylist : LoopStatus := "Playlist".

Definition LoopStatus_IsValid (e : LoopStatus) : bool :=
  if decide (e = LoopStatusNone) then true
  else if decide (e = LoopStatusTrack) then true
  else if decide (e = LoopStatusPlaylist) then true
  else false.

(** ** The metadata decoder *)

Record Media : Type := mkMedia {
  ID : string;
  Length : Z;
  ArtURL : string;
  Artist : string;
  Album : string;
  AlbumArtist : string;
  Title : string;
  Genre : string;
  Year : Z;
  URL : string
}.

(** The zero value [Media{}]. *)
Definition Media_zero : Media :=
  mkMedia "" 0 "" "" "" "" "" "" 0 "".

Definition set_ID (v : string) (m : Media) : Media :=
  mkMedia v (Length m) (ArtURL m) (Artist m) (Album m) (AlbumArtist m)
          (Title m) (Genre m) (Year m) (URL m).
Definition set_Length (v : Z) (m : Media) : Media :=
  mkMedia (ID m) v (ArtURL m) (Artist m) (Album m) (AlbumArtist m)
          (Title m) (Genre m) (Year m) (URL m).
Definition set_ArtURL (v : string) (m : Media) : Media :=
  mkMedia (ID m) (Length m) v (Artist m) (Album m) (AlbumArtist m)
          (Title m) (Genre m) (Year m) (URL m).
Definition set_Artist (v : string) (m : Media) : Media :=
  mkMedia (ID m) (Length m) (ArtURL m) v (Album m) (AlbumArtist m)
          (Title m) (Genre m) (Year m) (URL m).
Definition set_Album (v : string) (m : Media) : Media :=
  mkMedia (ID m) (Length m) (ArtURL m) (Artist m) v (AlbumArtist m)
          (Title m) (Genre m) (Year m) (URL m).
Definition set_AlbumArtist (v : string) (m : Media) : Media :=
  mkMedia (ID m) (Length m) (ArtURL m) (Artist m) (Album m) v
          (Title m) (Genre m) (Year m) (URL m).
Definition set_Title (v : string) (m : Media) : Media :=
  mkMedia (ID m) (Length m) (ArtURL m) (Artist m) (Album m) (AlbumArtist m)
          v (Genre m) (Year m) (URL m).
Definition set_Genre (v : string) (m : Media) : Media :=
  mkMedia (ID m) (Length m) (ArtURL m) (Artist m) (Album m) (AlbumArtist m)
          (Title m) v (Year m) (URL m).
Definition set_Year (v : Z) (m : Media) : Media :=
  mkMedia (ID m) (Length m) (ArtURL m) (Artist m) (Album m) (AlbumArtist m)
          (Title m) (Genre m) v (URL m).
Definition set_URL (v : string) (m : Media) : Media :=
  mkMedia (ID m) (Length m) (ArtURL m) (Artist m) (Album m) (AlbumArtist m)
          (Title m) (Genre m) (Year m) v.

Section Mpris.

(** [time.Parse(time.RFC3339, v)] followed by [Year()]: the standard
    library's parser is not part of the package, so the decoder is taken
    over any parser; [Some y] is a successful parse of a timestamp whose
    calendar year is [y], [None] a parse error. *)
Variable time_Parse_RFC3339_Year : string -> option Z.

(** The body of the [switch key] in [decodeMetadata], one [if] per
    [case], in source order.  A [case] with an empty body does nothing (Go
    has no fall-through). *)
Definition decodeEntry (m : Media) (kv : string * Variant) : Media :=
  let key := kv.1 in
  let val := kv.2 in
  if decide (key = "mpris:trackid") then
    match Value val with VString v => set_ID v m | _ => m end
  else if decide (key = "mpris:length") then
    match Value val with
    | VInt64 v => set_Length (int64 (v * time_Microsecond)) m
    | _ => m
    end
  else if decide (key = "mpris:artUrl") then
    match Value val with VString v => set_ArtURL v m | _ => m end
  else if decide (key = "xesam:album") then
    match Value val with VString v => set_Album v m | _ => m end
  else if decide (key = "xesam:albumArtist") then
    match Value val with VString v => set_AlbumArtist v m | _ => m end
  else if decide (key = "xesam:artist") then
    match Value val with
    | VString v => set_Artist v m
    | VStrings v => set_Artist (strings_Join v ", ") m
    | _ => m
    end
  else if decide (key = "xesam:asText") then m
  else if decide (key = "xesam:audioBPM") then m
  else if decide (key = "xesam:autoRating") then m
  else if decide (key = "xesam:comment") then m
  else if decide (key = "xesam:composer") then m
  else if decide (key = "xesam:contentCreated") then
    match Value val with
    | VString v =>
        match time_Parse_RFC3339_Year v with
        | Some y => set_Year (int8 y) m
        | None => m
        end
    | _ => m
    end
  else if decide (key = "xesam:discNumber") then m
  else if decide (key = "xesam:firstUsed") then m
  else if decide (key = "xesam:genre") then
    match Value val with
    | VStrings v => set_Genre (strings_Join v ", ") m
    | _ => m
    end
  else if decide (key = "xesam:lastUsed") then m
  else if decide (key = "xesam:lyricist") then m
  else if decide (key = "xesam:title") then
    match Value val with VString v => set_Title v m | _ => m end
  else if decide (key = "xesam:trackNumber") then m
  else if decide (key = "xesam:url") then
    match Value val with VString v => set_URL v m | _ => m end
  else if decide (key = "xesam:useCount") then m
  else if decide (key = "xesam:userRating") then m
  else m.

(** The [for key, val := range metadataMap] loop, along one iteration
    order of the map. *)
Definition decodeEntries (m : Media) (kvs : list (string * Variant)) : Media :=
  foldl decodeEntry m kvs.

(** [decodeMetadata(metadata, m)]: the record [m] points to is updated in
    place, so the function takes the record and returns it with the
    error.  Go ranges over a map in an unspecified order; the order of
    [map_to_list] is taken here, and [decodeEntries_order] shows that no
    other order gives another result. *)
Definition decodeMetadata (metadata : any) (m : Media) : Media * option error :=
  match metadata with
  | VDict metadataMap => (decodeEntries m (map_to_list metadataMap), None)
  | _ => (m, Some (errors_New
                     "mpris.decodeMetadata: metadata is not a valid structure"))
  end.


(** ** Endpoint state (player.go) *)

Record properties : Type := mkProperties {
  props_PlaybackStatus : PlaybackStatus;
  props_LoopStatus : LoopStatus;
  props_Shuffle : bool;
  props_Media : Media
}.

(** The zero value [properties{}]. *)
Definition properties_zero : properties :=
  mkProperties "" "" false Media_zero.

Definition set_Shuffle (v : bool) (ps : properties) : properties :=
  mkProperties (props_PlaybackStatus ps) (props_LoopStatus ps) v (props_Media ps).
Definition set_PlaybackStatus (v : PlaybackStatus) (ps : properties) : properties :=
  mkProperties v (props_LoopStatus ps) (props_Shuffle ps) (props_Media ps).
Definition set_LoopStatus (v : LoopStatus) (ps : properties) : properties :=
  mkProperties (props_PlaybackStatus ps) v (props_Shuffle ps) (props_Media ps).
Definition set_Media (v : Media) (ps : properties) : properties :=
  mkProperties (props_PlaybackStatus ps) (props_LoopStatus ps) (props_Shuffle ps) v.

(** One iteration of the loop of [UpdateProperties]: the [switch key] on
    the cached state and the change list built so far. *)
Definition updateEntry (st : properties * list string) (kv : string * Variant)
  : properties * list string :=
  let ps := st.1 in
  let changeList := st.2 in
  let key := kv.1 in
  let val := kv.2 in
  if decide (key = "Shuffle") then
    match Value val with
    | VBool v =>
        if decide (props_Shuffle ps ≠ v)
        then (set_Shuffle v ps, changeList ++ [key])
        else st
    | _ => st
    end
  else if decide (key = "PlaybackStatus") then
    match Value val with
    | VString v =>
        let s : PlaybackStatus := v in
        if PlaybackStatus_IsValid s && bool_decide (props_PlaybackStatus ps ≠ s)
        then (set_PlaybackStatus s ps, changeList ++ [key])
        else st
    | _ => st
    end
  else if decide (key = "LoopStatus") then
    match Value val with
    | VString v =>
        let s : LoopStatus := v in
        let s := if negb (LoopStatus_IsValid s) then LoopStatusNone else s in
        if decide (props_LoopStatus ps ≠ s)
        then (set_LoopStatus s ps, changeList ++ [key])
        else st
    | _ => st
    end
  else if decide (key = "Metadata") then
    match decodeMetadata (Value val) (props_Media ps) with
    | (m, None) => (set_Media m ps, changeList ++ [key])
    | (m, Some _) => (set_Media m ps, changeList)
    end
  else st.

(** The whole batch, along the order [kvs] in which the map is ranged
    over, from the empty change list. *)
Definition applyBatch (ps : properties) (kvs : list (string * Variant))
  : properties * list string :=
  foldl updateEntry (ps, []) kvs.

(** ** The remote object

    [dbus.BusObject] as far as the package uses it: [GetProperty] and
    [Call], answered by the remote endpoint.  [Call] returns the [Err]
    field of the [*dbus.Call]. *)

Record BusObject : Type := mkBusObject {
  GetProperty : string -> Variant + error;
  Call : string -> list any -> option error
}.

Record Player : Type := mkPlayer {
  obj : BusObject;
  destination : string;
  Name : string;
  Short : string;
  ownerID : string;
  player_properties : option properties;   (* [nil] is [None] *)
  isConnected : bool
}.

Definition set_properties (ps : option properties) (p : Player) : Player :=
  mkPlayer (obj p) (destination p) (Name p) (Short p) (ownerID p) ps
           (isConnected p).

(** The state a reader sees after the [nil] check of [UpdateProperties]:
    the cached state, or a fresh zero one. *)
Definition state_of (p : Player) : properties :=
  default properties_zero (player_properties p).

(** [(p *Player) UpdateProperties(props)], along the order [kvs] in which
    [props] is ranged over: the updated player and [changeList].  The lock
    is held from before the loop to the return, so the batch is one step on
    the state. *)
Definition UpdateProperties (p : Player) (kvs : list (string * Variant))
  : Player * list string :=
  let ps := match player_properties p with
            | None => properties_zero
            | Some ps => ps
            end in
  let r := applyBatch ps kvs in
  (set_properties (Some r.1) p, r.2).

End Mpris.

(** [kvs] is an order in which Go may range over the map [m]: each entry
    once, in any order. *)
Definition range_of (m : gmap string Variant) (kvs : list (string * Variant)) : Prop :=
  kvs ≡ₚ map_to_list m.

(** ** Control operations

    A control operation talks to the remote object; the trace records each
    property query and method call in order.  Reading the cached state of a
    player whose [properties] pointer is [nil] panics. *)

Inductive RemoteOp : Type :=
  | OpGetProperty (name : string)
  | OpCall (method : string) (args : list any).

Inductive result (A : Type) : Type :=
  | Returns (a : A)
  | NilDereference.
Arguments Returns {A} a.
Arguments NilDereference {A}.

Definition Exec (A : Type) : Type := list RemoteOp * result A.

#[global] Instance Exec_ret : MRet Exec := λ A (a : A), ([], Returns a).

#[global] Instance Exec_bind : MBind Exec := λ A B (f : A → Exec B) (x : Exec A),
  match x with
  | (t, Returns a) => let y := f a in (t ++ y.1, y.2)
  | (t, NilDereference) => (t, NilDereference)
  end.

Definition ret {A} (a : A) : Exec A := mret a.

Definition interfacePathMprisMediaPlayer2 : string := "org.mpris.MediaPlayer2".
Definition interfacePathMprisMediaPlayer2Player : string :=
  "org.mpris.MediaPlayer2.Player".
Definition interfacePathDBusProperties : string := "org.freedesktop.DBus.Properties".
Definition interfacePathDBus : string := "org.freedesktop.DBus".
Definition memberNameOwnerChanged : string := "NameOwnerChanged".
Definition memberNamePropertiesChanged : string := "PropertiesChanged".
Definition signalNamePropertiesChanged : string :=
  interfacePathDBusProperties +:+ "." +:+ memberNamePropertiesChanged.
Definition signalNameOwnerChanged : string :=
  interfacePathDBus +:+ "." +:+ memberNameOwnerChanged.

Definition getPlayerProp (p : Player) (prop : string) : Exec (Variant + error) :=
  let name := interfacePathMprisMediaPlayer2Player +:+ "." +:+ prop in
  ([OpGetProperty name], Returns (GetProperty (obj p) name)).

Definition makePlayerCall (p : Player) (method : string) (args : list any)
  : Exec (option error) :=
  let name := interfacePathMprisMediaPlayer2Player +:+ "." +:+ method in
  ([OpCall name args], Returns (Call (obj p) name args)).

(** The shared body of the [Can...] queries: [false] on a transport error,
    on a value that is not a [bool], and on [false]. *)
Definition capability (p : Player) (prop : string) : Exec bool :=
  r ← getPlayerProp p prop;
  match r with
  | inr _ => ret false
  | inl prop =>
      match Value prop with
      | VBool v => if negb v then ret false else ret true
      | _ => ret false
      end
  end.

Definition CanPlay (p : Player) : Exec bool := capability p "CanPlay".
Definition CanControl (p : Player) : Exec bool := capability p "CanControl".
Definition CanPause (p : Player) : Exec bool := capability p "CanPause".

(** [p.properties.PlaybackStatus]. *)
Definition cachedStatus (p : Player) : Exec PlaybackStatus :=
  match player_properties p with
  | Some ps => ret (props_PlaybackStatus ps)
  | None => ([], NilDereference)
  end.

Definition Play (p : Player) : Exec (option error) :=
  s ← cachedStatus p;
  if decide (s = PlaybackStatusPlaying) then ret None else
  ok ← CanPlay p;
  if negb ok then ret (Some (Errorf_s "mpris.Play" ErrUnsupported)) else
  err ← makePlayerCall p "Play" [];
  match err with
  | Some e => ret (Some (Errorf_w "mpris.Play" e))
  | None => ret None
  end.

Definition Stop (p : Player) : Exec (option error) :=
  s ← cachedStatus p;
  if decide (s = PlaybackStatusStopped) then ret None else
  ok ← CanControl p;
  if negb ok then ret (Some (Errorf_s "mpris.Stop" ErrUnsupported)) else
  err ← makePlayerCall p "Stop" [];
  match err with
  | Some e => ret (Some (Errorf_w "mpris.Stop" e))
  | None => ret None
  end.

Definition Pause (p : Player) : Exec (option error) :=
  s ← cachedStatus p;
  if decide (s = PlaybackStatusPaused) then ret None else
  ok ← CanPause p;
  if negb ok then ret (Some (Errorf_s "mpris.Pause" ErrUnsupported)) else
  err ← makePlayerCall p "Pause" [];
  match err with
  | Some e => ret (Some (Errorf_w "mpris.Pause" e))
  | None => ret None
  end.

Definition PlayPause (p : Player) : Exec (option error) :=
  canPause ← CanPause p;
  if negb canPause
  then ret (Some (Errorf_s "mpris.PlayPause" ErrUnsupported)) else
  canPlay ← CanPlay p;
  if negb canPlay
  then ret (Some (Errorf_s "mpris.PlayPause" ErrUnsupported)) else
  err ← makePlayerCall p "PlayPause" [];
  match err with
  | Some e => ret (Some (Errorf_w "mpris.PlayPause" e))
  | None => ret None
  end.

(** ** The listener started by [Register]

    A [dbus.Signal] as the loop reads it, and what the goroutine does to
    the outside: log lines, the two callbacks, and the bus calls of the
    deferred clean-up. *)

Record Signal : Type := mkSignal {
  sig_Sender : string;
  sig_Name : string;
  sig_Body : list any
}.

Inductive MatchRule : Type :=
  | signalPropertyChangeOpts
  | signalNameOwnerChangedOpts.

Inductive Event : Type :=
  | LogNotEnoughArgs (got : nat)
  | LogInvalidBody
  | LogPlayerDisconnected (name : string)
  | OnPropertyChange (name : string) (changedProps : list string)
  | RemoveSignal
  | OnDisconnect (name : string)
  | RemoveMatchSignal (opts : MatchRule)
  | CloseChannel.

(** What one turn of the [for] loop does after a message was received:
    go round again, [break Loop], or panic on an index out of range. *)
Inductive Outcome : Type :=
  | Continue (p : Player) (evs : list Event)
  | BreakLoop (evs : list Event)
  | IndexPanic (evs : list Event).

Inductive ListenerStatus : Type :=
  | Running       (* blocked on the receive *)
  | TornDown      (* loop left, clean-up done, goroutine returned *)
  | Crashed.      (* clean-up ran while panicking, the panic goes on *)

Section Listener.

Variable time_Parse_RFC3339_Year : string -> option Z.

(** The order in which the runtime ranges over a received property bag. *)
Variable range : gmap string Variant -> list (string * Variant).

Definition handleSignal (p : Player) (msg : Signal) : Outcome :=
  if decide (sig_Name msg = signalNamePropertiesChanged) then
    if decide (sig_Sender msg ≠ ownerID p) then Continue p [] else
    let logArgs :=
      if decide (length (sig_Body msg) ≠ 3%nat)
      then [LogNotEnoughArgs (length (sig_Body msg))] else [] in
    match sig_Body msg with
    | [] => IndexPanic logArgs
    | VString iface :: rest =>
        if decide (iface = interfacePathMprisMediaPlayer2Player) then
          match rest with
          | [] => IndexPanic logArgs
          | body1 :: _ =>
              let varMap := match body1 with VDict m => m | _ => ∅ end in
              let logBody := match body1 with VDict _ => [] | _ => [LogInvalidBody] end in
              let r := UpdateProperties time_Parse_RFC3339_Year p (range varMap) in
              if decide (0 < length r.2)%nat
              then Continue r.1 (logArgs ++ logBody ++ [OnPropertyChange (Name p) r.2])
              else Continue r.1 (logArgs ++ logBody)
          end
        else Continue p logArgs
    | _ :: _ => Continue p logArgs
    end
  else if decide (sig_Name msg = signalNameOwnerChanged) then
    match sig_Body msg with
    | [] => IndexPanic []
    | VString name :: rest =>
        if decide (name = Name p) then
          match rest with
          | [] => IndexPanic []
          | VString ownerID :: _ =>
              if decide (ownerID ≠ "")
              then BreakLoop [LogPlayerDisconnected name]
              else Continue p []
          | _ :: _ => Continue p []
          end
        else Continue p []
    | _ :: _ => Continue p []
    end
  else Continue p [].

(** How the loop was left, if it was. *)
Inductive LoopExit : Type := Waiting | Broke | Panicked.

(** The [for] loop over the messages delivered so far. *)
Fixpoint listenLoop (p : Player) (msgs : list Signal)
  : Player * list Event * LoopExit :=
  match msgs with
  | [] => (p, [], Waiting)
  | msg :: msgs' =>
      match handleSignal p msg with
      | Continue p' evs =>
          let r := listenLoop p' msgs' in
          (r.1.1, evs ++ r.1.2, r.2)
      | BreakLoop evs => (p, evs, Broke)
      | IndexPanic evs => (p, evs, Panicked)
      end
  end.

(** The deferred function, up to its own deferred [close(signalCh)]. *)
Definition teardown (p : Player) : list Event :=
  [RemoveSignal; OnDisconnect (Name p);
   RemoveMatchSignal signalNameOwnerChangedOpts;
   RemoveMatchSignal signalPropertyChangeOpts].

(** The goroutine on the messages [msgs], after which the channel is
    closed by the connection ([closed]) or still open.  Closing a channel
    that is already closed panics. *)
Definition listener (p : Player) (msgs : list Signal) (closed : bool)
  : Player * list Event * ListenerStatus :=
  let r := listenLoop p msgs in
  match r.2 with
  | Waiting =>
      if closed then (r.1.1, r.1.2 ++ teardown r.1.1, Crashed)
      else (r.1.1, r.1.2, Running)
  | Broke => (r.1.1, r.1.2 ++ teardown r.1.1 ++ [CloseChannel], TornDown)
  | Panicked => (r.1.1, r.1.2 ++ teardown r.1.1 ++ [CloseChannel], Crashed)
  end.

End Listener.

(** The fields of [org.freedesktop.DBus.NameOwnerChanged], in the order
    of its body: the name, its old owner, its new owner. *)
Definition ownerChanged_name (msg : Signal) : option any := sig_Body msg !! 0%nat.
Definition ownerChanged_oldOwner (msg : Signal) : option any := sig_Body msg !! 1%nat.
Definition ownerChanged_newOwner (msg : Signal) : option any := sig_Body msg !! 2%nat.

(** ** The destination pattern

    [regexp] works on the runes of its input: [utf8.DecodeRuneInString]
    reads one to four bytes, and a byte that starts no valid encoding is
    the rune U+FFFD of width one. *)

Definition rune : Type := N.
Definition RuneError : rune := 0xFFFD%N.

(** For a leading byte above ASCII: the width of the encoding and the range
    accepted for the second byte. *)
Definition utf8_first (b0 : N) : option (nat * N * N) :=
  (if b0 <? 0xC2 then None
   else if b0 <=? 0xDF then Some (2%nat, 0x80, 0xBF)
   else if b0 =? 0xE0 then Some (3%nat, 0xA0, 0xBF)
   else if b0 =? 0xED then Some (3%nat, 0x80, 0x9F)
   else if b0 <=? 0xEF then Some (3%nat, 0x80, 0xBF)
   else if b0 =? 0xF0 then Some (4%nat, 0x90, 0xBF)
   else if b0 <=? 0xF3 then Some (4%nat, 0x80, 0xBF)
   else if b0 =? 0xF4 then Some (4%nat, 0x80, 0x8F)
   else None)%N.

Definition utf8_cont (b : N) : bool := ((0x80 <=? b) && (b <=? 0xBF))%N.
Definition utf8_low6 (b : N) : N := N.land b 0x3F.

Fixpoint decodeRunes (s : string) : list rune :=
  match s with
  | EmptyString => []
  | String c0 s1 =>
      let b0 := N_of_ascii c0 in
      if (b0 <? 0x80)%N then b0 :: decodeRunes s1 else
      match utf8_first b0, s1 with
      | Some (sz, lo, hi), String c1 s2 =>
          let b1 := N_of_ascii c1 in
          if negb ((lo <=? b1) && (b1 <=? hi))%N then RuneError :: decodeRunes s1
          else if decide (sz = 2%nat)
          then (N.shiftl (N.land b0 0x1F) 6 + utf8_low6 b1)%N :: decodeRunes s2
          else
            match s2 with
            | String c2 s3 =>
                let b2 := N_of_ascii c2 in
                if negb (utf8_cont b2) then RuneError :: decodeRunes s1
                else if decide (sz = 3%nat)
                then (N.shiftl (N.land b0 0x0F) 12 + N.shiftl (utf8_low6 b1) 6
                      + utf8_low6 b2)%N :: decodeRunes s3
                else
                  match s3 with
                  | String c3 s4 =>
                      let b3 := N_of_ascii c3 in
                      if negb (utf8_cont b3) then RuneError :: decodeRunes s1
                      else (N.shiftl (N.land b0 0x07) 18
                            + N.shiftl (utf8_low6 b1) 12
                            + N.shiftl (utf8_low6 b2) 6 + utf8_low6 b3)%N
                           :: decodeRunes s4
                  | EmptyString => RuneError :: decodeRunes s1
                  end
            | EmptyString => RuneError :: decodeRunes s1
            end
      | _, _ => RuneError :: decodeRunes s1
      end
  end.

(** Regular expressions, as far as the pattern needs them. *)
Inductive Regexp : Type :=
  | ReFail
  | ReEmpty
  | ReLit (r : rune)
  | ReAnyCharNotNL
  | ReClass (ranges : list (rune * rune))
  | ReCat (a b : Regexp)
  | ReAlt (a b : Regexp)
  | ReStar (a : Regexp).

Fixpoint nullable (re : Regexp) : bool :=
  match re with
  | ReFail => false
  | ReEmpty => true
  | ReLit _ | ReAnyCharNotNL | ReClass _ => false
  | ReCat a b => nullable a && nullable b
  | ReAlt a b => nullable a || nullable b
  | ReStar _ => true
  end.

Definition inClass (ranges : list (rune * rune)) (r : rune) : bool :=
  existsb (fun lohi => (lohi.1 <=? r) && (r <=? lohi.2))%N ranges.

(** What is left of [re] to match after the rune [r]. *)
Fixpoint deriv (r : rune) (re : Regexp) : Regexp :=
  match re with
  | ReFail | ReEmpty => ReFail
  | ReLit r' => if (r =? r')%N then ReEmpty else ReFail
  | ReAnyCharNotNL => if (r =? 10)%N then ReFail else ReEmpty
  | ReClass ranges => if inClass ranges r then ReEmpty else ReFail
  | ReCat a b =>
      if nullable a then ReAlt (ReCat (deriv r a) b) (deriv r b)
      else ReCat (deriv r a) b
  | ReAlt a b => ReAlt (deriv r a) (deriv r b)
  | ReStar a => ReCat (deriv r a) (ReStar a)
  end.

(** The pattern is anchored by [^] and [$] (no flag is set, so [$] is the
    end of the text): the whole text has to match. *)
Definition matchWhole (re : Regexp) (s : string) : bool :=
  nullable (foldl (fun re r => deriv r re) re (decodeRunes s)).

Fixpoint ReLits (s : string) : Regexp :=
  match s with
  | EmptyString => ReEmpty
  | String c s' => ReCat (ReLit (N_of_ascii c)) (ReLits s')
  end.

Definition chr (c : ascii) : rune := N_of_ascii c.

(** [[a-zA-Z-_]]: after the range [A-Z] the [-] stands for itself. *)
Definition classHead : Regexp :=
  ReClass [(chr "a", chr "z"); (chr "A", chr "Z"); (chr "-", chr "-");
           (chr "_", chr "_")].

(** [[a-zA-Z-_0-9.]]. *)
Definition classTail : Regexp :=
  ReClass [(chr "a", chr "z"); (chr "A", chr "Z"); (chr "-", chr "-");
           (chr "_", chr "_"); (chr "0", chr "9"); (chr ".", chr ".")].

(** The pattern compiled by [init]: [^org.mpris.MediaPlayer2.], then one
    group made of the head class (with [{1}]) and the starred tail class,
    then [$].  The dots outside the classes are not escaped: each matches
    any rune but a newline. *)
Definition destinationRegexp : Regexp :=
  ReCat (ReLits "org") (ReCat ReAnyCharNotNL
  (ReCat (ReLits "mpris") (ReCat ReAnyCharNotNL
  (ReCat (ReLits "MediaPlayer2") (ReCat ReAnyCharNotNL
  (ReCat classHead (ReStar classTail))))))).

Definition HasValidDestinationName (destination : string) : bool :=
  matchWhole destinationRegexp destination.

(** ** What the loops compute, entry by entry

    Each [case] writes one field and reads nothing but that field, so the
    loops can be described field by field from the map.  These definitions
    are proved equal to the loops below ([decodeEntries_fields],
    [applyBatch_state], [applyBatch_changeList]). *)

(** The type assertions of the decoder's cases. *)
Definition asString (v : any) (old : string) : string :=
  match v with VString s => s | _ => old end.
Definition asLength (v : any) (old : Z) : Z :=
  match v with VInt64 n => int64 (n * time_Microsecond) | _ => old end.
Definition asArtist (v : any) (old : string) : string :=
  match v with
  | VString s => s
  | VStrings l => strings_Join l ", "
  | _ => old
  end.
Definition asGenre (v : any) (old : string) : string :=
  match v with VStrings l => strings_Join l ", " | _ => old end.
Definition asYear (parse : string -> option Z) (v : any) (old : Z) : Z :=
  match v with
  | VString s => match parse s with Some y => int8 y | None => old end
  | _ => old
  end.

(** The field after the loop: what the entry of key [k] makes of the old
    value, the old value when the map has no such entry. *)
Definition field {A} (d : gmap string Variant) (k : string)
    (upd : any -> A -> A) (old : A) : A :=
  match d !! k with Some v => upd v old | None => old end.

Definition decodeFields (parse : string -> option Z) (d : gmap string Variant)
    (m : Media) : Media :=
  mkMedia (field d "mpris:trackid" asString (ID m))
          (field d "mpris:length" asLength (Length m))
          (field d "mpris:artUrl" asString (ArtURL m))
          (field d "xesam:artist" asArtist (Artist m))
          (field d "xesam:album" asString (Album m))
          (field d "xesam:albumArtist" asString (AlbumArtist m))
          (field d "xesam:title" asString (Title m))
          (field d "xesam:genre" asGenre (Genre m))
          (field d "xesam:contentCreated" (asYear parse) (Year m))
          (field d "xesam:url" asString (URL m)).

(** An entry is well typed when its key has a [case] with a type assertion
    and an assertion of that case accepts the value. *)
Definition isString (v : any) : bool :=
  match v with VString _ => true | _ => false end.

Definition wellTyped (k : string) (v : any) : bool :=
  if decide (k = "mpris:trackid") then isString v
  else if decide (k = "mpris:length")
       then match v with VInt64 _ => true | _ => false end
  else if decide (k = "mpris:artUrl") then isString v
  else if decide (k = "xesam:album") then isString v
  else if decide (k = "xesam:albumArtist") then isString v
  else if decide (k = "xesam:artist")
       then match v with VString _ | VStrings _ => true | _ => false end
  else if decide (k = "xesam:contentCreated") then isString v
  else if decide (k = "xesam:genre")
       then match v with VStrings _ => true | _ => false end
  else if decide (k = "xesam:title") then isString v
  else if decide (k = "xesam:url") then isString v
  else false.

(** What a batch entry makes of the cached state. *)
Definition asShuffle (v : any) (old : bool) : bool :=
  match v with VBool b => b | _ => old end.
Definition asPlaybackStatus (v : any) (old : PlaybackStatus) : PlaybackStatus :=
  match v with
  | VString s => if PlaybackStatus_IsValid s then s else old
  | _ => old
  end.
Definition asLoopStatus (v : any) (old : LoopStatus) : LoopStatus :=
  match v with
  | VString s => if LoopStatus_IsValid s then s else LoopStatusNone
  | _ => old
  end.
Definition asMedia (parse : string -> option Z) (v : any) (old : Media) : Media :=
  (decodeMetadata parse v old).1.

(** The entries of a batch that put their key in the change list, given the
    state [ps] before the batch. *)
Definition accepted (ps : properties) (kv : string * Variant) : bool :=
  let k := kv.1 in
  let v := kv.2 in
  if decide (k = "Shuffle") then
    match v with VBool b => bool_decide (props_Shuffle ps ≠ b) | _ => false end
  else if decide (k = "PlaybackStatus") then
    match v with
    | VString s => PlaybackStatus_IsValid s && bool_decide (props_PlaybackStatus ps ≠ s)
    | _ => false
    end
  else if decide (k = "LoopStatus") then
    match v with
    | VString s => bool_decide (props_LoopStatus ps ≠ asLoopStatus v (props_LoopStatus ps))
    | _ => false
    end
  else if decide (k = "Metadata") then
    match v with VDict _ => true | _ => false end
  else false.

(** The cached state after a batch, field by field. *)
Definition batchState (parse : string -> option Z) (d : gmap string Variant)
    (ps : properties) : properties :=
  mkProperties
    (field d "PlaybackStatus" asPlaybackStatus (props_PlaybackStatus ps))
    (field d "LoopStatus" asLoopStatus (props_LoopStatus ps))
    (field d "Shuffle" asShuffle (props_Shuffle ps))
    (field d "Metadata" (asMedia parse) (props_Media ps)).

(** ** The other operations of the control surface *)

(** [errors.Unwrap]: only an error made with [%w] has something to
    unwrap. *)
Definition Unwrap (e : error) : option error :=
  match e with
  | Errorf_w _ e' => Some e'
  | _ => None
  end.

Definition getRootProp (p : Player) (prop : string) : Exec (Variant + error) :=
  let name := interfacePathMprisMediaPlayer2 +:+ "." +:+ prop in
  ([OpGetProperty name], Returns (GetProperty (obj p) name)).

Definition makeRootCall (p : Player) (method : string) (args : list any)
  : Exec (option error) :=
  let name := interfacePathMprisMediaPlayer2 +:+ "." +:+ method in
  ([OpCall name args], Returns (Call (obj p) name args)).

(** The body of [CanRaise] and [CanQuit], on the root interface. *)
Definition rootCapability (p : Player) (prop : string) : Exec bool :=
  r ← getRootProp p prop;
  match r with
  | inr _ => ret false
  | inl prop =>
      match Value prop with
      | VBool v => if negb v then ret false else ret true
      | _ => ret false
      end
  end.

Definition CanRaise (p : Player) : Exec bool := rootCapability p "CanRaise".
Definition CanQuit (p : Player) : Exec bool := rootCapability p "CanQuit".
Definition CanGoNext (p : Player) : Exec bool := capability p "CanGoNext".
Definition CanGoPrevious (p : Player) : Exec bool := capability p "CanGoPrevious".
Definition CanSeek (p : Player) : Exec bool := capability p "CanSeek".

Definition Raise (p : Player) : Exec (option error) :=
  ok ← CanRaise p;
  if negb ok then ret (Some (Errorf_s "mpris.Raise" ErrUnsupported)) else
  err ← makeRootCall p "Raise" [];
  match err with
  | Some e => ret (Some (Errorf_w "mpris.Raise" e))
  | None => ret None
  end.

Definition Quit (p : Player) : Exec (option error) :=
  ok ← CanQuit p;
  if negb ok then ret (Some (Errorf_s "mpris.Quit" ErrUnsupported)) else
  err ← makeRootCall p "Quit" [];
  match err with
  | Some e => ret (Some (Errorf_w "mpris.Quit" e))
  | None => ret None
  end.

Definition Next (p : Player) : Exec (option error) :=
  ok ← CanGoNext p;
  if negb ok then ret (Some (Errorf_s "mpris.Next" ErrUnsupported)) else
  err ← makePlayerCall p "Next" [];
  match err with
  | Some e => ret (Some (Errorf_w "mpris.Next" e))
  | None => ret None
  end.

Definition Previous (p : Player) : Exec (option error) :=
  ok ← CanGoPrevious p;
  if negb ok then ret (Some (Errorf_s "mpris.Previous" ErrUnsupported)) else
  err ← makePlayerCall p "Previous" [];
  match err with
  | Some e => ret (Some (Errorf_w "mpris.Previous" e))
  | None => ret None
  end.

(** [time.Second] in [time.Duration] units. *)
Definition time_Second : Z := 1000000000.

(** [(time.Duration(seconds) * time.Second).Microseconds()]: the product
    wraps in 64 bits, the division by 1000 truncates towards zero.  [int]
    is taken to have 64 bits. *)
Definition seekMicroseconds (seconds : Z) : Z :=
  Z.quot (int64 (seconds * time_Second)) 1000.

Definition Seek (p : Player) (seconds : Z) : Exec (option error) :=
  ok ← CanSeek p;
  if negb ok then ret (Some (Errorf_s "mpris.Seek" ErrUnsupported)) else
  err ← makePlayerCall p "Seek" [VInt64 (seekMicroseconds seconds)];
  match err with
  | Some e => ret (Some (Errorf_w "mpris.Seek" e))
  | None => ret None
  end.

(** The read accessors dereference [p.properties]. *)
Definition GetMetadata (p : Player) : result Media :=
  match player_properties p with
  | Some ps => Returns (props_Media ps)
  | None => NilDereference
  end.

Definition GetPlaybackStatus (p : Player) : result PlaybackStatus :=
  match player_properties p with
  | Some ps => Returns (props_PlaybackStatus ps)
  | None => NilDereference
  end.

Definition IsPlaying (p : Player) : result bool :=
  match GetPlaybackStatus p with
  | Returns s => Returns (bool_decide (s = PlaybackStatusPlaying))
  | NilDereference => NilDereference
  end.

Definition SetPosition (p : Player) (trackID : string) (microseconds : Z)
  : Exec (option error) :=
  ret (Some ErrNotImplemented).

Definition OpenUri (p : Player) (uri : string) : Exec (option error) :=
  ret (Some ErrNotImplemented).

(** ** [NewPlayer]

    What the constructor needs from outside the package is taken as given:
    the object the connection hands out for a destination, the body of the
    reply to [GetAll], [Store] into a [map[string]dbus.Variant], and
    [FindStringSubmatch] of the destination pattern.  Indexing the
    submatches with [1] panics when there are fewer than two. *)

Definition objectPathMpris : string := "/org/mpris/MediaPlayer2".

Record Constructed : Type := mkConstructed {
  np_player : option Player;     (* [None]: the zero [Player], whose [obj] is nil *)
  np_err : option error;
  np_ops : list RemoteOp;        (* the calls made on the endpoint's object *)
  np_registered : bool           (* whether [Register] was reached *)
}.

Inductive constructed : Type :=
  | Done (r : Constructed)
  | IndexOutOfRange.

Definition set_isConnected (b : bool) (p : Player) : Player :=
  mkPlayer (obj p) (destination p) (Name p) (Short p) (ownerID p)
           (player_properties p) b.

Section Constructor.

Variable time_Parse_RFC3339_Year : string -> option Z.
Variable range : gmap string Variant -> list (string * Variant).
Variable conn_Object : string -> string -> BusObject.
Variable call_Body : string -> list any.
Variable call_Store : list any -> error + gmap string Variant.
Variable FindStringSubmatch : string -> list string.

Definition NewPlayer (dest ownerID : string) : constructed :=
  if negb (HasValidDestinationName dest) then
    Done (mkConstructed None
            (Some (Errorf_w "player.NewPlayer" ErrInvalidDestination)) [] false)
  else
    match FindStringSubmatch dest !! 1%nat with
    | None => IndexOutOfRange
    | Some short =>
        let o := conn_Object dest objectPathMpris in
        let player := mkPlayer o dest dest short ownerID None false in
        let method := interfacePathDBusProperties +:+ ".GetAll" in
        let args := [VString interfacePathMprisMediaPlayer2Player] in
        match Call o method args with
        | Some e =>
            Done (mkConstructed (Some player)
                    (Some (Errorf_w
                             ("mpris.NewPlayer: Error while calling to get all properties on "
                              +:+ dest) e))
                    [OpCall method args] false)
        | None =>
            match call_Store (call_Body dest) with
            | inl _ =>
                (* [%w] is given [call.Err], which is nil here *)
                Done (mkConstructed (Some player)
                        (Some (errors_New
                                 ("mpris.NewPlayer: Error while decoding all properties on "
                                  +:+ dest +:+ ": %!w(<nil>)")))
                        [OpCall method args] false)
            | inr rawProps =>
                let r := UpdateProperties time_Parse_RFC3339_Year player
                           (range rawProps) in
                Done (mkConstructed (Some (set_isConnected true r.1)) None
                        [OpCall method args] true)
            end
        end
    end.

End Constructor.

(** ** Using what [NewPlayer] returned

    With the error of an invalid destination [NewPlayer] returns the zero
    [Player]: its [properties] pointer and its [obj] are both nil, so a
    method that reads the cached state or asks the remote object
    dereferences nil before it does anything else. *)
Definition readReturned {A} (f : Player -> result A) (o : option Player)
  : result A :=
  match o with
  | Some p => f p
  | None => NilDereference
  end.

Definition callReturned {A} (f : Player -> Exec A) (o : option Player) : Exec A :=
  match o with
  | Some p => f p
  | None => ([], NilDereference)
  end.

(** ** The earlier decoder

    [decodeMetadata(metadata dbus.Variant) (Track, error)] of the first
    version of the package: [Track] has the fields of [Media], the [switch]
    is the same, and the record decoded into is a fresh [Track{}]. *)

Abbreviation Track := Media (only parsing).

Definition decodeTrack (parse : string -> option Z) (metadata : Variant)
  : Track * option error :=
  let t := Media_zero in
  match Value metadata with
  | VDict metadataMap => (decodeEntries parse t (map_to_list metadataMap), None)
  | _ => (t, Some (errors_New
                     "mpris.decodeMetadata: metadata is not a valid structure"))
  end.

(** ** The front end's [separatePlayers] (main.go) *)

Fixpoint separatePlayers_from (selected : option Player) (others : list Player)
    (players : list Player) (name : string) : option Player * list Player :=
  match players with
  | [] => (selected, others)
  | p :: players' =>
      if decide (name = Name p)
      then separatePlayers_from (Some p) others players' name
      else separatePlayers_from selected (others ++ [p]) players' name
  end.

Definition separatePlayers (players : list Player) (name : string)
  : option Player * list Player :=
  separatePlayers_from None [] players name.

(** ** What a regular expression matches *)

Inductive matches : Regexp -> list rune -> Prop :=
  | matches_empty : matches ReEmpty []
  | matches_lit r : matches (ReLit r) [r]
  | matches_any r : r ≠ 10%N -> matches ReAnyCharNotNL [r]
  | matches_class ranges r :
      inClass ranges r = true -> matches (ReClass ranges) [r]
  | matches_cat a b u v :
      matches a u -> matches b v -> matches (ReCat a b) (u ++ v)
  | matches_alt_l a b u : matches a u -> matches (ReAlt a b) u
  | matches_alt_r a b u : matches b u -> matches (ReAlt a b) u
  | matches_star_nil a : matches (ReStar a) []
  | matches_star_cons a u v :
      matches a u -> matches (ReStar a) v -> matches (ReStar a) (u ++ v).

Definition runes (s : string) : list rune := map N_of_ascii (list_ascii_of_string s).

Definition isHead (r : rune) : bool :=
  inClass [(chr "a", chr "z"); (chr "A", chr "Z"); (chr "-", chr "-");
           (chr "_", chr "_")] r.

Definition isTail (r : rune) : bool :=
  inClass [(chr "a", chr "z"); (chr "A", chr "Z"); (chr "-", chr "-");
           (chr "_", chr "_"); (chr "0", chr "9"); (chr ".", chr ".")] r.

(** ** Vocabulary of the further properties *)

(** The bag gives nothing for the key: no entry, or one of a type that
    the key's [case] does not assert. *)
Definition undecodable (d : gmap string Variant) (k : string) : Prop :=
  d !! k = None ∨ ∃ v, d !! k = Some v ∧ wellTyped k v = false.

(** The cached statuses are members of their enumerations, or still the
    zero value of a state that never saw one. *)
Definition statusesValid (ps : properties) : Prop :=
  props_PlaybackStatus ps
    ∈ [""; PlaybackStatusPlaying; PlaybackStatusPaused; PlaybackStatusStopped]
  ∧ props_LoopStatus ps
    ∈ [""; LoopStatusNone; LoopStatusTrack; LoopStatusPlaylist].

(** Batches applied one after the other, each along its own order. *)
Definition applyBatches (parse : string -> option Z) (p : Player)
    (batches : list (list (string * Variant))) : Player :=
  foldl (fun p kvs => (UpdateProperties parse p kvs).1) p batches.

(** The events that are calls of the two callbacks. *)
Definition isDisconnect (e : Event) : bool :=
  match e with OnDisconnect _ => true | _ => false end.

Definition isPropertyChange (e : Event) : bool :=
  match e with OnPropertyChange _ _ => true | _ => false end.

(** Events that are calls of neither callback. *)
Definition quiet (evs : list Event) : Prop :=
  Forall (fun e => isDisconnect e = false /\ isPropertyChange e = false) evs.

(** A [NameOwnerChanged] message that makes the listener of [p] leave its
    loop. *)
Definition disconnects (p : Player) (msg : Signal) : Prop :=
  sig_Name msg = signalNameOwnerChanged
  ∧ ownerChanged_name msg = Some (VString (Name p))
  ∧ ∃ o, ownerChanged_oldOwner msg = Some (VString o) ∧ o ≠ "".

(** A message the loop of [p] looks into: a property change sent by the
    owner, or any presence change. *)
Definition relevant (p : Player) (msg : Signal) : bool :=
  bool_decide (sig_Name msg = signalNamePropertiesChanged
               ∧ sig_Sender msg = ownerID p)
  || bool_decide (sig_Name msg = signalNameOwnerChanged).

(** The names a control operation is sent under, the answer that opens
    its gate, and the two errors it can return. *)
Definition playerMember (member : string) : string :=
  interfacePathMprisMediaPlayer2Player +:+ "." +:+ member.

Definition rootMember (member : string) : string :=
  interfacePathMprisMediaPlayer2 +:+ "." +:+ member.

Definition answersTrue (r : Variant + error) : bool :=
  match r with inl (VBool true) => true | _ => false end.

Definition unsupported (op : string) : error := Errorf_s op ErrUnsupported.

Definition transport (op : string) (err : option error) : option error :=
  match err with
  | Some e => Some (Errorf_w op e)
  | None => None
  end.

Definition isCall (o : RemoteOp) : bool :=
  match o with OpCall _ _ => true | OpGetProperty _ => false end.

(** What a gated operation comes to: the query alone and the unsupported
    error, or the query, the call and what the call returned. *)
Definition gated (query method op : string) (args : list any) (p : Player)
  : Exec (option error) :=
  if answersTrue (GetProperty (obj p) query)
  then ([OpGetProperty query; OpCall method args],
        Returns (transport op (Call (obj p) method args)))
  else ([OpGetProperty query], Returns (Some (unsupported op))).

(** ** Sample endpoints and batches *)

(** A remote object that answers no query. *)
Definition silentObject : BusObject :=
  mkBusObject (λ _, inr (errors_New "no reply")) (λ _ _, None).

(** A remote object that answers every property query with [v]. *)
Definition answering (v : any) : BusObject :=
  mkBusObject (λ _, inl v) (λ _ _, None).

Definition playerWith (o : BusObject) (ps : option properties) : Player :=
  mkPlayer o "org.mpris.MediaPlayer2.vlc" "org.mpris.MediaPlayer2.vlc" "vlc"
           ":1.42" ps true.

(** A player as [NewPlayer] leaves it before the first batch. *)
Definition freshPlayer : Player := playerWith silentObject None.

(** A parser that knows one timestamp. *)
Definition sampleParse (s : string) : option Z :=
  if decide (s = "2024-05-01T12:00:00Z") then Some 2024 else None.

Definition firstTrack : gmap string Variant :=
  {[ "xesam:title" := VString "First";
     "xesam:album" := VString "Album one";
     "xesam:contentCreated" := VString "2024-05-01T12:00:00Z" ]}.

Definition secondTrack : gmap string Variant :=
  {[ "xesam:title" := VString "Second" ]}.

Definition metadataBatch (track : gmap string Variant) : gmap string Variant :=
  {[ "Metadata" := VDict track ]}.

Definition bogusBatch : gmap string Variant :=
  {[ "PlaybackStatus" := VString "Buffering";
     "LoopStatus" := VString "Shuffle";
     "Shuffle" := VBool true;
     "Metadata" := VDict firstTrack ]}.

Definition pausedProperties : properties :=
  mkProperties PlaybackStatusPaused LoopStatusNone false Media_zero.

Definition playingProperties : properties :=
  mkProperties PlaybackStatusPlaying LoopStatusTrack false Media_zero.

Definition stoppedProperties : properties :=
  mkProperties PlaybackStatusStopped LoopStatusTrack false Media_zero.

(** * Properties *)

(** ** Ranging over a map *)

Lemma range_of_map_to_list (m : gmap string Variant) : range_of m (map_to_list m).
Proof. unfold range_of. reflexivity. Qed.

Lemma range_of_NoDup (m : gmap string Variant) kvs :
  range_of m kvs → NoDup kvs.*1.
Proof.
  unfold range_of. intros Hp. rewrite Hp. apply NoDup_fst_map_to_list.
Qed.

Lemma range_of_list_to_map (m : gmap string Variant) kvs :
  range_of m kvs → list_to_map kvs = m.
Proof.
  intros Hp. rewrite <- (list_to_map_to_list m).
  apply list_to_map_proper; [by eapply range_of_NoDup | exact Hp].
Qed.

Lemma range_of_elem (m : gmap string Variant) kvs k v :
  range_of m kvs → (k, v) ∈ kvs ↔ m !! k = Some v.
Proof.
  unfold range_of. intros Hp. rewrite Hp. apply elem_of_map_to_list.
Qed.

(** A field that only the entry of key [k0] writes ends as that entry
    leaves it, whatever the order of the loop. *)
Lemma foldl_field_list {S A : Type} (step : S → string * Variant → S)
    (proj : S → A) (k0 : string) (upd : Variant → A → A) :
  (∀ s k v, proj (step s (k, v))
            = if decide (k = k0) then upd v (proj s) else proj s) →
  ∀ kvs s, NoDup kvs.*1 →
    proj (foldl step s kvs)
    = match (list_to_map kvs : gmap string Variant) !! k0 with
      | Some v => upd v (proj s)
      | None => proj s
      end.
Proof.
  intros Hstep kvs. induction kvs as [|[k v] kvs IH]; intros s Hnd.
  - reflexivity.
  - simpl in *. apply NoDup_cons in Hnd as [Hk Hnd].
    rewrite (IH _ Hnd), Hstep. destruct (decide (k = k0)) as [->|Hne].
    + rewrite lookup_insert_eq.
      by rewrite (not_elem_of_list_to_map_1 _ _ Hk).
    + by rewrite lookup_insert_ne.
Qed.

Lemma foldl_field {S A : Type} (step : S → string * Variant → S)
    (proj : S → A) (k0 : string) (upd : Variant → A → A) :
  (∀ s k v, proj (step s (k, v))
            = if decide (k = k0) then upd v (proj s) else proj s) →
  ∀ (m : gmap string Variant) kvs s, range_of m kvs →
    proj (foldl step s kvs)
    = match m !! k0 with Some v => upd v (proj s) | None => proj s end.
Proof.
  intros Hstep m kvs s Hr.
  rewrite (foldl_field_list step proj k0 upd Hstep kvs s (range_of_NoDup _ _ Hr)).
  by rewrite (range_of_list_to_map _ _ Hr).
Qed.

(** ** The decoder, field by field *)

Ltac decide_keys :=
  repeat match goal with
    | |- context [decide (?a = ?b)] =>
        destruct (decide (a = b)) as [?|?];
        [ try discriminate; subst | try congruence ]
    end.

Section DecoderFacts.

Variable parse : string -> option Z.

Lemma decodeEntry_fields m k v :
  decodeEntry parse m (k, v)
  = decodeFields parse {[ k := v ]} m.
Proof.
  unfold decodeEntry, decodeFields, field, Value; simpl.
  decide_keys;
    rewrite ?lookup_singleton_eq, ?lookup_singleton_ne by congruence;
    destruct m; try destruct v; simpl; try destruct (parse _); reflexivity.
Qed.

Lemma field_singleton {A} k v k0 (upd : any → A → A) old :
  field {[ k := v ]} k0 upd old = if decide (k = k0) then upd v old else old.
Proof.
  unfold field. rewrite lookup_singleton. by destruct (decide (k = k0)).
Qed.

Lemma Media_ext (a b : Media) :
  ID a = ID b → Length a = Length b → ArtURL a = ArtURL b →
  Artist a = Artist b → Album a = Album b → AlbumArtist a = AlbumArtist b →
  Title a = Title b → Genre a = Genre b → Year a = Year b → URL a = URL b →
  a = b.
Proof. destruct a, b; simpl; intros; congruence. Qed.

(** The loop of the decoder computes [decodeFields], in every order in
    which the map can be ranged over. *)
Lemma decodeEntries_fields d kvs m :
  range_of d kvs → decodeEntries parse m kvs = decodeFields parse d m.
Proof.
  intros Hr. unfold decodeEntries.
  apply Media_ext; unfold decodeFields; simpl;
    match goal with
    | |- ?proj _ = field _ ?k0 ?upd _ =>
        apply (foldl_field (decodeEntry parse) proj k0 upd); [|exact Hr];
        intros s k v; rewrite decodeEntry_fields; apply field_singleton
    end.
Qed.

Lemma decodeEntries_order d kvs m :
  range_of d kvs → decodeEntries parse m kvs = decodeEntries parse m (map_to_list d).
Proof.
  intros Hr. rewrite (decodeEntries_fields d kvs m Hr).
  symmetry. apply decodeEntries_fields, range_of_map_to_list.
Qed.

Lemma decodeMetadata_dict d m :
  decodeMetadata parse (VDict d) m = (decodeFields parse d m, None).
Proof.
  simpl. f_equal. apply decodeEntries_fields, range_of_map_to_list.
Qed.

Lemma decodeMetadata_not_dict v m :
  (∀ d, v ≠ VDict d) →
  decodeMetadata parse v m
  = (m, Some (errors_New "mpris.decodeMetadata: metadata is not a valid structure")).
Proof. intros Hv. destruct v; try reflexivity. by destruct (Hv m0). Qed.

End DecoderFacts.

(** ** A change batch, field by field *)

Section BatchFacts.

Variable parse : string -> option Z.

Lemma updateEntry_state ps cl k v :
  (updateEntry parse (ps, cl) (k, v)).1 = batchState parse {[ k := v ]} ps.
Proof.
  unfold updateEntry, batchState, field, asMedia, Value,
    set_Shuffle, set_PlaybackStatus, set_LoopStatus, set_Media; simpl.
  decide_keys;
    rewrite ?lookup_singleton_eq, ?lookup_singleton_ne by congruence;
    destruct ps as [pb lp sh md]; simpl.
  - destruct v; try reflexivity. simpl.
    destruct (decide (sh ≠ b)) as [|H%dec_stable]; simpl; congruence.
  - destruct v; try reflexivity. simpl.
    destruct (PlaybackStatus_IsValid s); simpl; [|reflexivity].
    case_bool_decide as H; simpl; congruence.
  - destruct v; try reflexivity. simpl.
    destruct (LoopStatus_IsValid s); simpl;
      match goal with |- context [decide (?a ≠ ?b)] =>
        destruct (decide (a ≠ b)) as [|H%dec_stable] end; simpl; congruence.
  - by destruct (decodeMetadata parse v md) as [m' [e|]].
  - reflexivity.
Qed.

Lemma updateEntry_changeList ps cl k v :
  (updateEntry parse (ps, cl) (k, v)).2
  = cl ++ (if accepted ps (k, v) then [k] else []).
Proof.
  unfold updateEntry, accepted, Value; simpl.
  decide_keys; rewrite ?app_nil_r; try reflexivity.
  - destruct v; rewrite ?app_nil_r; try reflexivity.
    destruct (decide (props_Shuffle ps ≠ b)) as [H|H];
      [rewrite bool_decide_true by done | rewrite bool_decide_false by done];
      by rewrite ?app_nil_r.
  - destruct v; rewrite ?app_nil_r; try reflexivity.
    destruct (PlaybackStatus_IsValid s && bool_decide (props_PlaybackStatus ps ≠ s));
      by rewrite ?app_nil_r.
  - destruct v; rewrite ?app_nil_r; try reflexivity. simpl.
    destruct (LoopStatus_IsValid s); simpl;
      match goal with |- context [decide (?a ≠ ?b)] =>
        destruct (decide (a ≠ b)) as [H|H] end;
      [rewrite bool_decide_true by done | rewrite bool_decide_false by done
      |rewrite bool_decide_true by done | rewrite bool_decide_false by done];
      by rewrite ?app_nil_r.
  - destruct v; simpl; rewrite ?app_nil_r; try reflexivity.
    all: unfold decodeMetadata; simpl; by rewrite ?app_nil_r.
Qed.

Lemma accepted_frame ps cl k v k' v' :
  k' ≠ k →
  accepted (updateEntry parse (ps, cl) (k, v)).1 (k', v') = accepted ps (k', v').
Proof.
  intros Hne. rewrite updateEntry_state.
  unfold accepted, batchState, field; simpl.
  decide_keys; rewrite ?lookup_singleton_ne by congruence; reflexivity.
Qed.

Lemma foldl_changeList kvs : ∀ ps cl,
  NoDup kvs.*1 →
  (foldl (updateEntry parse) (ps, cl) kvs).2
  = cl ++ (List.filter (accepted ps) kvs).*1.
Proof.
  induction kvs as [|[k v] kvs IH]; intros ps cl Hnd; simpl.
  - by rewrite app_nil_r.
  - apply NoDup_cons in Hnd as [Hk Hnd].
    destruct (updateEntry parse (ps, cl) (k, v)) as [ps1 cl1] eqn:E.
    rewrite (IH ps1 cl1 Hnd).
    pose proof (updateEntry_changeList ps cl k v) as Hcl. rewrite E in Hcl.
    simpl in Hcl. subst cl1.
    assert (List.filter (accepted ps1) kvs = List.filter (accepted ps) kvs) as ->.
    { apply List.filter_ext_in. intros [k' v'] Hin.
      replace ps1 with (updateEntry parse (ps, cl) (k, v)).1 by (by rewrite E).
      apply accepted_frame. intros ->. apply Hk.
      apply list_elem_of_In in Hin. by apply (list_elem_of_fmap_2 fst) in Hin. }
    destruct (accepted ps (k, v)); simpl; by rewrite <- ?app_assoc, ?app_nil_r.
Qed.

(** The loop of [UpdateProperties] computes [batchState], and its change
    list holds the keys of the accepted entries in the order of the
    loop. *)
Lemma applyBatch_changeList d kvs ps :
  range_of d kvs →
  (applyBatch parse ps kvs).2 = (List.filter (accepted ps) kvs).*1.
Proof.
  intros Hr. unfold applyBatch.
  by rewrite (foldl_changeList kvs ps [] (range_of_NoDup _ _ Hr)).
Qed.

Lemma properties_ext (a b : properties) :
  props_PlaybackStatus a = props_PlaybackStatus b →
  props_LoopStatus a = props_LoopStatus b →
  props_Shuffle a = props_Shuffle b →
  props_Media a = props_Media b → a = b.
Proof. destruct a, b; simpl; intros; congruence. Qed.

Lemma applyBatch_state d kvs ps :
  range_of d kvs → (applyBatch parse ps kvs).1 = batchState parse d ps.
Proof.
  intros Hr. unfold applyBatch.
  change ps with (ps, @nil string).1 at 2.
  generalize (ps, @nil string). intros st.
  apply properties_ext; unfold batchState; simpl;
    match goal with
    | |- ?proj _ = field _ ?k0 ?upd _ =>
        apply (foldl_field (updateEntry parse) (λ st, proj st.1) k0 upd);
          [|exact Hr];
        intros [s c] k v; rewrite updateEntry_state; apply field_singleton
    end.
Qed.

End BatchFacts.

(** ** [UpdateProperties] *)

Section UpdateFacts.

Variable parse : string -> option Z.

Lemma UpdateProperties_state p d kvs :
  range_of d kvs →
  state_of (UpdateProperties parse p kvs).1 = batchState parse d (state_of p).
Proof.
  intros Hr. unfold UpdateProperties, state_of; simpl.
  destruct (player_properties p); simpl; by apply applyBatch_state.
Qed.

Lemma UpdateProperties_changeList p d kvs k :
  range_of d kvs →
  k ∈ (UpdateProperties parse p kvs).2
  ↔ ∃ v, d !! k = Some v ∧ accepted (state_of p) (k, v) = true.
Proof.
  intros Hr. unfold UpdateProperties, state_of; simpl.
  set (ps := match player_properties p with
             | Some ps => ps | None => properties_zero end).
  replace (default properties_zero (player_properties p)) with ps
    by (subst ps; by destruct (player_properties p)).
  rewrite (applyBatch_changeList parse d kvs ps Hr).
  rewrite list_elem_of_fmap. split.
  - intros [[k' v] [-> Hin]]. apply list_elem_of_In, filter_In in Hin as [Hin Hacc].
    exists v. split; [|exact Hacc].
    by apply (range_of_elem d kvs), list_elem_of_In.
  - intros (v & Hd & Hacc). exists (k, v). split; [reflexivity|].
    apply list_elem_of_In, filter_In. split; [|exact Hacc].
    by apply list_elem_of_In, (range_of_elem d kvs).
Qed.

Lemma NoDup_filter_fst (f : string * Variant → bool) kvs :
  NoDup kvs.*1 → NoDup (List.filter f kvs).*1.
Proof.
  induction kvs as [|[k v] kvs IH]; simpl; [done|].
  intros [Hk Hnd]%NoDup_cons. destruct (f (k, v)); simpl; [|by apply IH].
  apply NoDup_cons. split; [|by apply IH].
  intros [[k' v'] [Hk' Hin]]%list_elem_of_fmap. simpl in Hk'. subst k'.
  apply Hk. apply list_elem_of_fmap. exists (k, v'). split; [done|].
  apply list_elem_of_In. apply list_elem_of_In in Hin.
  by apply filter_In in Hin as [Hin _].
Qed.

Lemma UpdateProperties_NoDup p d kvs :
  range_of d kvs → NoDup (UpdateProperties parse p kvs).2.
Proof.
  intros Hr. unfold UpdateProperties; simpl.
  rewrite (applyBatch_changeList parse d kvs _ Hr).
  apply NoDup_filter_fst. by eapply range_of_NoDup.
Qed.

Lemma accepted_keys ps k v :
  accepted ps (k, v) = true →
  k ∈ ["Shuffle"; "PlaybackStatus"; "LoopStatus"; "Metadata"].
Proof.
  unfold accepted; simpl. decide_keys; try discriminate; intros _; set_solver.
Qed.

End UpdateFacts.

Lemma IsValid_PlaybackStatus s :
  PlaybackStatus_IsValid s = true
  ↔ s ∈ [PlaybackStatusPlaying; PlaybackStatusPaused; PlaybackStatusStopped].
Proof.
  unfold PlaybackStatus_IsValid. rewrite !elem_of_cons, elem_of_nil.
  repeat case_decide; (split; [intros ?; try discriminate; tauto
                              |intros [?|[?|[?|[]]]]; congruence]).
Qed.

Lemma IsValid_LoopStatus s :
  LoopStatus_IsValid s = true
  ↔ s ∈ [LoopStatusNone; LoopStatusTrack; LoopStatusPlaylist].
Proof.
  unfold LoopStatus_IsValid. rewrite !elem_of_cons, elem_of_nil.
  repeat case_decide; (split; [intros ?; try discriminate; tauto
                              |intros [?|[?|[?|[]]]]; congruence]).
Qed.

(** C3. An invalid PlaybackStatus in a batch leaves the cached playback
    status as it was and puts no entry in the change list; an invalid
    LoopStatus is stored as None, and "LoopStatus" is in the change list
    exactly when the cached loop status was not None before. *)
Theorem C3_invalid_status (parse : string → option Z) (p : Player)
    (d : gmap string Variant) (kvs : list (string * Variant)) :
  range_of d kvs →
  let r := UpdateProperties parse p kvs in
  (∀ s, d !! "PlaybackStatus" = Some (VString s) →
        s ∉ [PlaybackStatusPlaying; PlaybackStatusPaused; PlaybackStatusStopped] →
        props_PlaybackStatus (state_of r.1) = props_PlaybackStatus (state_of p)
        ∧ "PlaybackStatus" ∉ r.2)
  ∧ (∀ s, d !! "LoopStatus" = Some (VString s) →
          s ∉ [LoopStatusNone; LoopStatusTrack; LoopStatusPlaylist] →
          props_LoopStatus (state_of r.1) = LoopStatusNone
          ∧ ("LoopStatus" ∈ r.2 ↔ props_LoopStatus (state_of p) ≠ LoopStatusNone)).
Proof.
  intros Hr r. subst r. split; intros s Hd Hs.
  - assert (PlaybackStatus_IsValid s = false) as Hv.
    { apply not_true_is_false. by rewrite IsValid_PlaybackStatus. }
    split.
    + rewrite (UpdateProperties_state parse p d kvs Hr).
      unfold batchState, field; simpl. by rewrite Hd; simpl; rewrite Hv.
    + rewrite (UpdateProperties_changeList parse p d kvs _ Hr).
      intros (v & Hd' & Hacc). assert (v = VString s) as -> by congruence.
      unfold accepted in Hacc; simpl in Hacc. by rewrite Hv in Hacc.
  - assert (LoopStatus_IsValid s = false) as Hv.
    { apply not_true_is_false. by rewrite IsValid_LoopStatus. }
    split.
    + rewrite (UpdateProperties_state parse p d kvs Hr).
      unfold batchState, field; simpl. by rewrite Hd; simpl; rewrite Hv.
    + rewrite (UpdateProperties_changeList parse p d kvs _ Hr). split.
      * intros (v & Hd' & Hacc). assert (v = VString s) as -> by congruence.
        unfold accepted in Hacc; simpl in Hacc. rewrite Hv in Hacc.
        by apply bool_decide_eq_true in Hacc.
      * intros Hne. exists (VString s). split; [exact Hd|].
        unfold accepted; simpl. rewrite Hv. by apply bool_decide_eq_true.
Qed.

(** C4. Applying the same batch a second time, in whatever order the map
    is ranged over each time, reports none of Shuffle, PlaybackStatus and
    LoopStatus, and reports Metadata exactly when its value is a key/value
    structure. *)
Theorem C4_same_batch_twice (parse : string → option Z) (p : Player)
    (d : gmap string Variant) (kvs1 kvs2 : list (string * Variant)) :
  range_of d kvs1 → range_of d kvs2 →
  let p1 := (UpdateProperties parse p kvs1).1 in
  let cl2 := (UpdateProperties parse p1 kvs2).2 in
  ("Shuffle" ∉ cl2) ∧ ("PlaybackStatus" ∉ cl2) ∧ ("LoopStatus" ∉ cl2)
  ∧ ("Metadata" ∈ cl2 ↔ ∃ m, d !! "Metadata" = Some (VDict m)).
Proof.
  intros Hr1 Hr2 p1 cl2. subst p1 cl2.
  rewrite !(UpdateProperties_changeList parse _ d kvs2 _ Hr2).
  rewrite (UpdateProperties_state parse p d kvs1 Hr1).
  unfold accepted, batchState, field; simpl.
  repeat split.
  - intros (v & Hd & Hacc). rewrite Hd in Hacc.
    destruct v; try discriminate. simpl in Hacc.
    by apply bool_decide_eq_true in Hacc.
  - intros (v & Hd & Hacc). rewrite Hd in Hacc.
    destruct v; try discriminate. simpl in Hacc.
    destruct (PlaybackStatus_IsValid s); [|discriminate]. simpl in Hacc.
    by apply bool_decide_eq_true in Hacc.
  - intros (v & Hd & Hacc). rewrite Hd in Hacc.
    destruct v; try discriminate. simpl in Hacc.
    by apply bool_decide_eq_true in Hacc.
  - intros (v & Hd & Hacc). destruct v; try discriminate. by eexists.
  - intros [m Hd]. by exists (VDict m).
Qed.

(** C10. A batch leaves every cached field whose key it does not hold as
    it was; its change list holds only keys of the batch, out of the four
    recognised ones, and none twice. *)
Theorem C10_frame (parse : string → option Z) (p : Player)
    (d : gmap string Variant) (kvs : list (string * Variant)) :
  range_of d kvs →
  let r := UpdateProperties parse p kvs in
  (d !! "Shuffle" = None →
     props_Shuffle (state_of r.1) = props_Shuffle (state_of p))
  ∧ (d !! "PlaybackStatus" = None →
     props_PlaybackStatus (state_of r.1) = props_PlaybackStatus (state_of p))
  ∧ (d !! "LoopStatus" = None →
     props_LoopStatus (state_of r.1) = props_LoopStatus (state_of p))
  ∧ (d !! "Metadata" = None →
     props_Media (state_of r.1) = props_Media (state_of p))
  ∧ (∀ k, k ∈ r.2 →
       is_Some (d !! k)
       ∧ k ∈ ["Shuffle"; "PlaybackStatus"; "LoopStatus"; "Metadata"])
  ∧ NoDup r.2.
Proof.
  intros Hr r. subst r.
  rewrite (UpdateProperties_state parse p d kvs Hr).
  unfold batchState, field; simpl.
  split; [by intros ->|]. split; [by intros ->|].
  split; [by intros ->|]. split; [by intros ->|]. split.
  - intros k Hk.
    apply (UpdateProperties_changeList parse p d kvs k Hr) in Hk
      as (v & Hd & Hacc).
    split; [by exists v | by eapply accepted_keys].
  - by eapply UpdateProperties_NoDup.
Qed.


Lemma C3_invalid_status_witness :
  let r := UpdateProperties sampleParse (playerWith silentObject (Some playingProperties))
             (map_to_list bogusBatch) in
  (props_PlaybackStatus (state_of r.1) = PlaybackStatusPlaying
   ∧ "PlaybackStatus" ∉ r.2)
  ∧ (props_LoopStatus (state_of r.1) = LoopStatusNone
     ∧ ("LoopStatus" ∈ r.2 ↔ LoopStatusTrack ≠ LoopStatusNone)).
Proof.
  assert (range_of bogusBatch (map_to_list bogusBatch)) as Hr
    by (unfold range_of; reflexivity).
  pose proof (C3_invalid_status sampleParse
                (playerWith silentObject (Some playingProperties))
                bogusBatch (map_to_list bogusBatch) Hr) as [H1 H2].
  split.
  - apply (H1 "Buffering"); [reflexivity|].
    apply (bool_decide_unpack _). vm_compute. exact I.
  - apply (H2 "Shuffle"); [reflexivity|].
    apply (bool_decide_unpack _). vm_compute. exact I.
Defined.

Lemma C4_same_batch_twice_witness :
  let p1 := (UpdateProperties sampleParse freshPlayer (map_to_list bogusBatch)).1 in
  let cl2 := (UpdateProperties sampleParse p1 (reverse (map_to_list bogusBatch))).2 in
  ("Shuffle" ∉ cl2) ∧ ("PlaybackStatus" ∉ cl2) ∧ ("LoopStatus" ∉ cl2)
  ∧ ("Metadata" ∈ cl2 ↔ ∃ m, bogusBatch !! "Metadata" = Some (VDict m)).
Proof.
  apply (C4_same_batch_twice sampleParse freshPlayer bogusBatch).
  - unfold range_of. reflexivity.
  - unfold range_of. apply reverse_Permutation.
Defined.

Lemma C10_frame_witness :
  let d := metadataBatch secondTrack in
  let p := playerWith silentObject (Some playingProperties) in
  let r := UpdateProperties sampleParse p (map_to_list d) in
  props_Shuffle (state_of r.1) = false
  ∧ props_PlaybackStatus (state_of r.1) = PlaybackStatusPlaying
  ∧ props_LoopStatus (state_of r.1) = LoopStatusTrack
  ∧ (is_Some (d !! "Metadata")
     ∧ "Metadata" ∈ ["Shuffle"; "PlaybackStatus"; "LoopStatus"; "Metadata"])
  ∧ NoDup r.2.
Proof.
  intros d p r.
  assert (range_of d (map_to_list d)) as Hr by (unfold range_of; reflexivity).
  destruct (C10_frame sampleParse p d (map_to_list d) Hr)
    as (HS & HP & HL & _ & Hk & Hnd).
  split; [apply HS; reflexivity|].
  split; [apply HP; reflexivity|].
  split; [apply HL; reflexivity|].
  split; [|exact Hnd].
  apply Hk. vm_compute. left.
Defined.

(** ** The decoder's errors and the release year *)

Lemma field_insert_mistyped {A} (d : gmap string Variant) k v k0
    (upd : any → A → A) old :
  (k = k0 → upd v old = old) →
  field (<[k:=v]> d) k0 upd old = field (delete k d) k0 upd old.
Proof.
  intros Hupd. unfold field. destruct (decide (k = k0)) as [->|Hne].
  - rewrite lookup_insert_eq, lookup_delete_eq. by apply Hupd.
  - by rewrite lookup_insert_ne, lookup_delete_ne.
Qed.

Lemma decodeFields_mistyped parse (d : gmap string Variant) k v m :
  wellTyped k v = false →
  decodeFields parse (<[k:=v]> d) m = decodeFields parse (delete k d) m.
Proof.
  intros Hw. unfold decodeFields.
  f_equal; apply field_insert_mistyped; intros ->; revert Hw;
    unfold wellTyped; decide_keys; destruct v; simpl; congruence.
Qed.

(** C7. The decoder fails exactly on a value that is not a key/value map;
    on a map it succeeds whatever the entries hold, and an entry of the
    wrong type counts as if the map did not have it. *)
Theorem C7_decode_errors (parse : string → option Z) (m : Media) :
  (∀ metadata, (decodeMetadata parse metadata m).2 ≠ None
               ↔ ∀ d, metadata ≠ VDict d)
  ∧ (∀ d, (decodeMetadata parse (VDict d) m).2 = None)
  ∧ (∀ d k v, wellTyped k v = false →
       decodeMetadata parse (VDict (<[k:=v]> d)) m
       = decodeMetadata parse (VDict (delete k d)) m).
Proof.
  split; [|split].
  - intros metadata. split.
    + intros Herr d ->. by apply Herr.
    + intros Hnd. by rewrite (decodeMetadata_not_dict parse metadata m Hnd).
  - reflexivity.
  - intros d k v Hw. rewrite !decodeMetadata_dict.
    by rewrite (decodeFields_mistyped parse d k v m Hw).
Qed.

Lemma C7_decode_errors_witness :
  decodeMetadata sampleParse (VDict (<["xesam:title" := VInt64 7]> firstTrack)) Media_zero
  = decodeMetadata sampleParse (VDict (delete "xesam:title" firstTrack)) Media_zero.
Proof.
  apply (C7_decode_errors sampleParse Media_zero). reflexivity.
Defined.

Lemma int8_range z : -128 ≤ int8 z ≤ 127.
Proof. unfold int8. pose proof (Z.mod_pos_bound (z + 128) 256). lia. Qed.

Lemma int8_congruent z : int8 z `mod` 256 = z `mod` 256.
Proof.
  assert (int8 z = z + (- ((z + 128) `div` 256)) * 256) as ->.
  { unfold int8. pose proof (Z.div_mod (z + 128) 256). lia. }
  apply Z.mod_add. lia.
Qed.

(** The decoder writes the year only from a timestamp that parses. *)
Lemma decodeMetadata_Year parse (d : gmap string Variant) m :
  Year (decodeMetadata parse (VDict d) m).1
  = match d !! "xesam:contentCreated" with
    | Some (VString v) =>
        match parse v with Some y => int8 y | None => Year m end
    | _ => Year m
    end.
Proof.
  rewrite decodeMetadata_dict. unfold decodeFields, field, asYear; simpl.
  destruct (d !! "xesam:contentCreated") as [[]|]; reflexivity.
Qed.

(** What a Metadata entry does to the cached record: the decoder runs on
    the record as cached, so a field whose key the new bag lacks keeps what
    the last track left there. *)
Lemma UpdateProperties_Metadata parse p (d md : gmap string Variant) kvs :
  range_of d kvs → d !! "Metadata" = Some (VDict md) →
  props_Media (state_of (UpdateProperties parse p kvs).1)
  = decodeFields parse md (props_Media (state_of p)).
Proof.
  intros Hr Hd. rewrite (UpdateProperties_state parse p d kvs Hr).
  unfold batchState, field, asMedia; simpl. rewrite Hd.
  by rewrite decodeMetadata_dict.
Qed.

(** C1. The code at the failing input: after a track with an album, a
    Metadata bag without an album entry is accepted and reported, and the
    cached album is still the first track's. *)
Theorem C1_stale_track_fields :
  let p1 := (UpdateProperties sampleParse freshPlayer
               (map_to_list (metadataBatch firstTrack))).1 in
  let r := UpdateProperties sampleParse p1
             (map_to_list (metadataBatch secondTrack)) in
  secondTrack !! "xesam:album" = None
  ∧ r.2 = ["Metadata"]
  ∧ Title (props_Media (state_of r.1)) = "Second"
  ∧ Album (props_Media (state_of r.1)) = "Album one".
Proof. vm_compute. repeat split. Qed.

(** What the decoder does to the year, in general: a creation timestamp
    that parses sets it to the calendar year narrowed to 8 bits, two's
    complement; without such an entry, with one that is no string, or with
    one that does not parse, the year of the record decoded into is left as
    it was. *)
Lemma release_year_decoded (parse : string → option Z)
    (d : gmap string Variant) (m : Media) :
  let created := d !! "xesam:contentCreated" in
  (∀ v y, created = Some (VString v) → parse v = Some y →
     Year (decodeMetadata parse (VDict d) m).1 = int8 y
     ∧ -128 ≤ int8 y ≤ 127
     ∧ int8 y `mod` 256 = y `mod` 256)
  ∧ (created = None
     ∨ (∃ v, created = Some v ∧ ∀ s, v ≠ VString s)
     ∨ (∃ s, created = Some (VString s) ∧ parse s = None) →
     Year (decodeMetadata parse (VDict d) m).1 = Year m).
Proof.
  intros created. subst created. split.
  - intros v y Hd Hp. rewrite decodeMetadata_Year, Hd, Hp.
    split; [reflexivity|]. split; [apply int8_range | apply int8_congruent].
  - rewrite decodeMetadata_Year.
    intros [Hd | [(v & Hd & Hv) | (s & Hd & Hp)]]; rewrite Hd.
    + reflexivity.
    + destruct v; try reflexivity. by destruct (Hv s).
    + by rewrite Hp.
Qed.

(** C9. The code at the failing input.  A track created in 2024 is
    cached with the year narrowed to 8 bits, -24, as the claim says.  The
    next Metadata bag has no creation timestamp, is accepted and reported,
    and the cached year is still -24 where the claim says zero: the decoder
    runs on the cached record and nothing resets it. *)
Theorem C9_stale_year :
  let p1 := (UpdateProperties sampleParse freshPlayer
               (map_to_list (metadataBatch firstTrack))).1 in
  let r := UpdateProperties sampleParse p1
             (map_to_list (metadataBatch secondTrack)) in
  firstTrack !! "xesam:contentCreated" = Some (VString "2024-05-01T12:00:00Z")
  ∧ sampleParse "2024-05-01T12:00:00Z" = Some 2024
  ∧ Year (props_Media (state_of p1)) = int8 2024
  ∧ int8 2024 = -24
  ∧ secondTrack !! "xesam:contentCreated" = None
  ∧ r.2 = ["Metadata"]
  ∧ Year (props_Media (state_of r.1)) = -24
  ∧ Year (decodeMetadata sampleParse (VDict secondTrack)
            (props_Media (state_of p1))).1 = -24.
Proof. vm_compute. repeat split. Qed.

(** ** Control operations *)

Lemma capability_trace p prop :
  (capability p prop).1
  = [OpGetProperty (interfacePathMprisMediaPlayer2Player +:+ "." +:+ prop)].
Proof.
  unfold capability, getPlayerProp, mbind, Exec_bind; simpl.
  destruct (GetProperty _ _) as [[]|]; simpl; try reflexivity.
  by destruct b.
Qed.

Lemma capability_false p prop :
  (∃ e, GetProperty (obj p) (interfacePathMprisMediaPlayer2Player +:+ "." +:+ prop)
        = inr e)
  ∨ GetProperty (obj p) (interfacePathMprisMediaPlayer2Player +:+ "." +:+ prop)
    = inl (VBool false) →
  capability p prop
  = ([OpGetProperty (interfacePathMprisMediaPlayer2Player +:+ "." +:+ prop)],
     Returns false).
Proof.
  unfold capability, getPlayerProp, mbind, Exec_bind; simpl.
  intros [[e ->] | ->]; reflexivity.
Qed.

(** C5, as stated, fails: with the cached status already Paused, [Pause]
    returns no error although the capability query would answer false. *)
Lemma C5_counterexample :
  let p := playerWith (answering (VBool false)) (Some pausedProperties) in
  GetProperty (obj p) "org.mpris.MediaPlayer2.Player.CanPause" = inl (VBool false)
  ∧ (CanPause p).2 = Returns false
  ∧ Pause p = ([], Returns None).
Proof. vm_compute. repeat split. Qed.

(** C5, amended. For an endpoint with a cached state whose playback status
    is not Paused, and whose CanPause query fails or answers false, [Pause]
    returns the unsupported error after that one query, without a method
    call. *)
Theorem C5_pause_unsupported (p : Player) (ps : properties) :
  player_properties p = Some ps →
  props_PlaybackStatus ps ≠ PlaybackStatusPaused →
  (∃ e, GetProperty (obj p) "org.mpris.MediaPlayer2.Player.CanPause" = inr e)
  ∨ GetProperty (obj p) "org.mpris.MediaPlayer2.Player.CanPause" = inl (VBool false) →
  Pause p = ([OpGetProperty "org.mpris.MediaPlayer2.Player.CanPause"],
             Returns (Some (Errorf_s "mpris.Pause" ErrUnsupported)))
  ∧ Error (Errorf_s "mpris.Pause" ErrUnsupported) = "mpris.Pause: unsupported"
  ∧ ∀ method args, OpCall method args ∉ (Pause p).1.
Proof.
  intros Hps Hne Hcap.
  assert (Pause p = ([OpGetProperty "org.mpris.MediaPlayer2.Player.CanPause"],
                     Returns (Some (Errorf_s "mpris.Pause" ErrUnsupported)))) as HP.
  { unfold Pause, cachedStatus. rewrite Hps.
    unfold CanPause. rewrite (capability_false p "CanPause" Hcap).
    unfold mbind, Exec_bind, ret, mret, Exec_ret; simpl.
    by destruct (decide (props_PlaybackStatus ps = PlaybackStatusPaused)). }
  split; [exact HP|]. split; [reflexivity|].
  intros method args. rewrite HP. simpl.
  intros [Heq | Hin%elem_of_nil]%elem_of_cons; [discriminate Heq | exact Hin].
Qed.

Lemma C5_pause_unsupported_witness :
  let p := playerWith silentObject (Some playingProperties) in
  Pause p = ([OpGetProperty "org.mpris.MediaPlayer2.Player.CanPause"],
             Returns (Some (Errorf_s "mpris.Pause" ErrUnsupported)))
  ∧ Error (Errorf_s "mpris.Pause" ErrUnsupported) = "mpris.Pause: unsupported"
  ∧ ∀ method args, OpCall method args ∉ (Pause p).1.
Proof.
  apply (C5_pause_unsupported (playerWith silentObject (Some playingProperties))
           playingProperties).
  - reflexivity.
  - discriminate.
  - left. eexists. reflexivity.
Defined.

(** C6. With the cached playback status already at the target, [Play],
    [Pause] and [Stop] return no error and leave an empty trace: no
    capability query, no method call. *)
Theorem C6_idempotent (p : Player) (ps : properties) :
  player_properties p = Some ps →
  (props_PlaybackStatus ps = PlaybackStatusPlaying → Play p = ([], Returns None))
  ∧ (props_PlaybackStatus ps = PlaybackStatusPaused → Pause p = ([], Returns None))
  ∧ (props_PlaybackStatus ps = PlaybackStatusStopped → Stop p = ([], Returns None)).
Proof.
  intros Hps. unfold Play, Pause, Stop, cachedStatus. rewrite Hps.
  unfold mbind, Exec_bind, ret, mret, Exec_ret; simpl.
  repeat split; intros ->; reflexivity.
Qed.

Lemma C6_idempotent_witness :
  Play (playerWith silentObject (Some playingProperties)) = ([], Returns None)
  ∧ Pause (playerWith silentObject (Some pausedProperties)) = ([], Returns None)
  ∧ Stop (playerWith silentObject (Some stoppedProperties)) = ([], Returns None).
Proof.
  split; [|split].
  - apply (C6_idempotent (playerWith silentObject (Some playingProperties))
             playingProperties); reflexivity.
  - apply (C6_idempotent (playerWith silentObject (Some pausedProperties))
             pausedProperties); reflexivity.
  - apply (C6_idempotent (playerWith silentObject (Some stoppedProperties))
             stoppedProperties); reflexivity.
Defined.

(** ** The destination pattern *)

(** C8. The four destinations of the specification. *)
Theorem C8_destination_names :
  HasValidDestinationName "org.mpris.MediaPlayer2.spotify" = true
  ∧ HasValidDestinationName "org.mpris.MediaPlayer2.vlc.instance1234" = true
  ∧ HasValidDestinationName "org.mpris.MediaPlayer2." = false
  ∧ HasValidDestinationName "com.example.spotify" = false.
Proof. vm_compute. repeat split. Qed.

(** ** The listener *)

Lemma signal_names_differ : signalNameOwnerChanged ≠ signalNamePropertiesChanged.
Proof. intros H. vm_compute in H. discriminate H. Qed.

Section ListenerFacts.

Variable parse : string → option Z.
Variable range : gmap string Variant → list (string * Variant).

(** The [NameOwnerChanged] branch reads the first two body arguments
    only. *)
Lemma handleSignal_ownerChanged p sender (a b : any) rest :
  handleSignal parse range p (mkSignal sender signalNameOwnerChanged (a :: b :: rest))
  = match a, b with
    | VString name, VString o =>
        if decide (name = Name p ∧ o ≠ "")
        then BreakLoop [LogPlayerDisconnected name]
        else Continue p []
    | _, _ => Continue p []
    end.
Proof.
  unfold handleSignal; simpl.
  destruct (decide (signalNameOwnerChanged = signalNamePropertiesChanged))
    as [H|_]; [by destruct (signal_names_differ H)|].
  destruct (decide (signalNameOwnerChanged = signalNameOwnerChanged));
    [|done].
  destruct a as [name| | | | | | | |]; try reflexivity.
  destruct b as [o| | | | | | | |];
    try (destruct (decide (name = Name p)); reflexivity).
  destruct (decide (name = Name p)), (decide (o ≠ "")),
    (decide (name = Name p ∧ o ≠ "")); try reflexivity; tauto.
Qed.

(** With fewer than two arguments the index expressions of the branch
    panic: on an empty body always, on a body of one argument when that
    argument is the endpoint's name. *)
Lemma handleSignal_ownerChanged_short p sender :
  handleSignal parse range p (mkSignal sender signalNameOwnerChanged [])
  = IndexPanic []
  ∧ handleSignal parse range p
      (mkSignal sender signalNameOwnerChanged [VString (Name p)])
    = IndexPanic [].
Proof.
  unfold handleSignal; simpl.
  destruct (decide (signalNameOwnerChanged = signalNamePropertiesChanged))
    as [H|_]; [by destruct (signal_names_differ H)|].
  destruct (decide (signalNameOwnerChanged = signalNameOwnerChanged)); [|done].
  split; [reflexivity|]. by destruct (decide (Name p = Name p)).
Qed.

Lemma listener_break p msg msgs closed evs :
  handleSignal parse range p msg = BreakLoop evs →
  listener parse range p (msg :: msgs) closed
  = (p, evs ++ teardown p ++ [CloseChannel], TornDown).
Proof. intros H. unfold listener; simpl. by rewrite H. Qed.

Lemma listener_skip p msg msgs closed :
  handleSignal parse range p msg = Continue p [] →
  listener parse range p (msg :: msgs) closed = listener parse range p msgs closed.
Proof.
  intros H. unfold listener; simpl. rewrite H; simpl.
  by destruct (listenLoop parse range p msgs) as [[p' evs] []].
Qed.

End ListenerFacts.

(** C2, as stated, fails.  The body of [NameOwnerChanged] is the name, the
    old owner, the new owner.  When the player leaves the bus the new owner
    is empty and the listener is torn down; when the name is taken for the
    first time the new owner is not empty and the listener goes on. *)
Lemma C2_counterexample :
  let left := mkSignal "org.freedesktop.DBus" signalNameOwnerChanged
                [VString "org.mpris.MediaPlayer2.vlc"; VString ":1.42"; VString ""] in
  let taken := mkSignal "org.freedesktop.DBus" signalNameOwnerChanged
                 [VString "org.mpris.MediaPlayer2.vlc"; VString ""; VString ":1.43"] in
  (ownerChanged_name left = Some (VString (Name freshPlayer))
   ∧ ownerChanged_newOwner left = Some (VString "")
   ∧ (listener sampleParse map_to_list freshPlayer [left] false).2 = TornDown)
  ∧ (ownerChanged_name taken = Some (VString (Name freshPlayer))
     ∧ ownerChanged_newOwner taken = Some (VString ":1.43")
     ∧ listener sampleParse map_to_list freshPlayer [taken] false
       = (freshPlayer, [], Running)).
Proof. vm_compute. repeat split. Qed.

(** C2, amended. For a presence-change notification with at least its name
    and old-owner arguments, the loop is left exactly when the name is the
    endpoint's and the old owner (the second argument) is a non-empty
    string: the goroutine then logs, unsubscribes, calls the disconnect
    callback and closes its channel, whatever was delivered after.  In every
    other case the notification changes nothing and the listener goes on
    with the next message. *)
Theorem C2_owner_changed (parse : string → option Z)
    (range : gmap string Variant → list (string * Variant))
    (p : Player) (msg : Signal) (msgs : list Signal) (closed : bool) :
  sig_Name msg = signalNameOwnerChanged →
  (2 ≤ length (sig_Body msg))%nat →
  let disconnects :=
    ownerChanged_name msg = Some (VString (Name p))
    ∧ ∃ o, ownerChanged_oldOwner msg = Some (VString o) ∧ o ≠ "" in
  ((∃ evs, handleSignal parse range p msg = BreakLoop evs) ↔ disconnects)
  ∧ (disconnects →
       listener parse range p (msg :: msgs) closed
       = (p, [LogPlayerDisconnected (Name p); RemoveSignal; OnDisconnect (Name p);
              RemoveMatchSignal signalNameOwnerChangedOpts;
              RemoveMatchSignal signalPropertyChangeOpts; CloseChannel],
          TornDown))
  ∧ (¬ disconnects →
       handleSignal parse range p msg = Continue p []
       ∧ listener parse range p (msg :: msgs) closed
         = listener parse range p msgs closed).
Proof.
  destruct msg as [sender name body]; simpl. intros -> Hlen.
  destruct body as [|a [|b rest]]; simpl in Hlen; try lia.
  unfold ownerChanged_name, ownerChanged_oldOwner; simpl.
  set (D := Some a = Some (VString (Name p))
            ∧ ∃ o, Some b = Some (VString o) ∧ o ≠ "").
  set (m := mkSignal sender signalNameOwnerChanged (a :: b :: rest)).
  assert (D ∧ handleSignal parse range p m = BreakLoop [LogPlayerDisconnected (Name p)]
          ∨ ¬ D ∧ handleSignal parse range p m = Continue p []) as Hcase.
  { subst m. rewrite handleSignal_ownerChanged.
    destruct a as [n| | | | | | | |];
      try (right; split; [intros [Ha _]; discriminate Ha | reflexivity]).
    destruct b as [o| | | | | | | |];
      try (right; split; [intros [_ (o' & Hb & _)]; discriminate Hb | reflexivity]).
    destruct (decide (n = Name p ∧ o ≠ "")) as [[-> Ho]|Hn].
    - left. split; [|reflexivity]. split; [reflexivity | by exists o].
    - right. split; [|reflexivity].
      intros [Ha (o' & Hb & Ho')]. apply Hn.
      injection Ha as ->. injection Hb as ->. done. }
  destruct Hcase as [[Hd Hh] | [Hd Hh]].
  - split; [|split].
    + split; [by intros _ | intros _; by eexists].
    + intros _. by rewrite (listener_break parse range p m msgs closed _ Hh).
    + intros Hn. by destruct Hn.
  - split; [|split].
    + split; [intros [evs Hevs]; congruence | intros H; by destruct Hd].
    + intros H. by destruct Hd.
    + intros _. split; [exact Hh|]. by apply listener_skip.
Qed.

Lemma C2_owner_changed_witness :
  let gone := mkSignal "org.freedesktop.DBus" signalNameOwnerChanged
                [VString "org.mpris.MediaPlayer2.vlc"; VString ":1.42"; VString ""] in
  let other := mkSignal "org.freedesktop.DBus" signalNameOwnerChanged
                 [VString "org.mpris.MediaPlayer2.mpv"; VString ":1.50"; VString ""] in
  listener sampleParse map_to_list freshPlayer [gone; other] true
  = (freshPlayer,
     [LogPlayerDisconnected (Name freshPlayer); RemoveSignal;
      OnDisconnect (Name freshPlayer);
      RemoveMatchSignal signalNameOwnerChangedOpts;
      RemoveMatchSignal signalPropertyChangeOpts; CloseChannel],
     TornDown)
  ∧ listener sampleParse map_to_list freshPlayer [other] false
    = listener sampleParse map_to_list freshPlayer [] false.
Proof.
  intros gone other. split.
  - assert (sig_Name gone = signalNameOwnerChanged) as Hname by reflexivity.
    assert (2 ≤ length (sig_Body gone))%nat as Hlen by (simpl; lia).
    destruct (C2_owner_changed sampleParse map_to_list freshPlayer gone [other]
                true Hname Hlen) as (_ & Hbreak & _).
    apply Hbreak. split; [reflexivity|].
    exists ":1.42". split; [reflexivity | discriminate].
  - assert (sig_Name other = signalNameOwnerChanged) as Hname by reflexivity.
    assert (2 ≤ length (sig_Body other))%nat as Hlen by (simpl; lia).
    destruct (C2_owner_changed sampleParse map_to_list freshPlayer other []
                false Hname Hlen) as (_ & _ & Hskip).
    apply Hskip. intros [Hn _]. discriminate Hn.
Defined.

(** * Further properties *)

(** ** The decoder *)

(** X1. The decoder's result does not depend on the order in which the
    runtime ranges over the bag. *)
Theorem X1_decode_any_order (parse : string → option Z)
    (d : gmap string Variant) (kvs1 kvs2 : list (string * Variant)) (m : Media) :
  range_of d kvs1 → range_of d kvs2 →
  decodeEntries parse m kvs1 = decodeEntries parse m kvs2
  ∧ decodeEntries parse m kvs1 = (decodeMetadata parse (VDict d) m).1.
Proof.
  intros H1 H2. split.
  - by rewrite (decodeEntries_fields parse d kvs1 m H1),
               (decodeEntries_fields parse d kvs2 m H2).
  - rewrite decodeMetadata_dict. by apply decodeEntries_fields.
Qed.

Lemma X1_decode_any_order_witness :
  decodeEntries sampleParse Media_zero (map_to_list firstTrack)
  = decodeEntries sampleParse Media_zero (reverse (map_to_list firstTrack))
  ∧ decodeEntries sampleParse Media_zero (map_to_list firstTrack)
    = (decodeMetadata sampleParse (VDict firstTrack) Media_zero).1.
Proof.
  apply (X1_decode_any_order sampleParse firstTrack).
  - unfold range_of. reflexivity.
  - unfold range_of. apply reverse_Permutation.
Defined.

(** X2. The artist is the string of the entry, or the strings of the entry
    joined by a comma and a space, in their order; the genre is joined the
    same way but only from a list: a genre given as one string is not
    taken. *)
Theorem X2_artist_and_genre (parse : string → option Z)
    (d : gmap string Variant) (m : Media) :
  let r := (decodeMetadata parse (VDict d) m).1 in
  (∀ s, d !! "xesam:artist" = Some (VString s) → Artist r = s)
  ∧ (∀ l, d !! "xesam:artist" = Some (VStrings l) → Artist r = String.concat ", " l)
  ∧ (∀ l, d !! "xesam:genre" = Some (VStrings l) → Genre r = String.concat ", " l)
  ∧ (∀ s, d !! "xesam:genre" = Some (VString s) → Genre r = Genre m).
Proof.
  intros r. subst r. rewrite decodeMetadata_dict.
  unfold decodeFields, field; simpl.
  repeat split; intros x Hx; by rewrite Hx.
Qed.

Lemma X2_artist_and_genre_witness :
  let d : gmap string Variant :=
    {[ "xesam:artist" := VStrings ["A"; "B"]; "xesam:genre" := VString "Rock" ]} in
  Artist (decodeMetadata sampleParse (VDict d) Media_zero).1 = "A, B"
  ∧ Genre (decodeMetadata sampleParse (VDict d) Media_zero).1 = "".
Proof.
  intros d.
  destruct (X2_artist_and_genre sampleParse d Media_zero) as (_ & Ha & _ & Hg).
  split.
  - apply (Ha ["A"; "B"]). reflexivity.
  - apply (Hg "Rock"). reflexivity.
Defined.

(** X3. A length of [n] microseconds is stored as [1000 * n] nanoseconds
    as long as that fits 64 bits; beyond, the product wraps. *)
Theorem X3_length (parse : string → option Z)
    (d : gmap string Variant) (m : Media) (n : Z) :
  d !! "mpris:length" = Some (VInt64 n) →
  let r := (decodeMetadata parse (VDict d) m).1 in
  Length r = int64 (n * 1000)
  ∧ (- 2 ^ 63 ≤ n * 1000 < 2 ^ 63 → Length r = n * 1000)
  ∧ - 2 ^ 63 ≤ Length r < 2 ^ 63.
Proof.
  intros Hd r. subst r. rewrite decodeMetadata_dict.
  unfold decodeFields, field; simpl. rewrite Hd. simpl.
  unfold int64, time_Microsecond.
  pose proof (Z.mod_pos_bound (n * 1000 + 2 ^ 63) (2 ^ 64)) as Hb.
  split; [reflexivity|]. split; [|lia].
  intros Hr. rewrite Z.mod_small by lia. lia.
Qed.

Lemma X3_length_witness :
  let d : gmap string Variant := {[ "mpris:length" := VInt64 5000000 ]} in
  Length (decodeMetadata sampleParse (VDict d) Media_zero).1 = 5 * time_Second.
Proof.
  intros d.
  destruct (X3_length sampleParse d Media_zero 5000000) as (_ & H & _).
  - reflexivity.
  - apply H. lia.
Defined.

(** X4. Decoding the same bag again into the record it was decoded into
    changes nothing. *)
Theorem X4_decode_idempotent (parse : string → option Z)
    (d : gmap string Variant) (m : Media) :
  let m1 := (decodeMetadata parse (VDict d) m).1 in
  (decodeMetadata parse (VDict d) m1).1 = m1.
Proof.
  intros m1. subst m1. rewrite !decodeMetadata_dict. simpl.
  unfold decodeFields, field; simpl.
  apply Media_ext; simpl;
    match goal with |- context [d !! ?k] => destruct (d !! k) as [[]|] end;
    simpl; try reflexivity.
  by destruct (parse s).
Qed.

(** X5. The earlier decoder builds its record from zero: a field for
    whose key the bag gives nothing is zero in the record returned, and the
    result is what the later decoder makes of a zero record. *)
Theorem X5_earlier_decoder_resets (parse : string → option Z)
    (d : gmap string Variant) :
  let t := (decodeTrack parse (VDict d)).1 in
  decodeTrack parse (VDict d) = decodeMetadata parse (VDict d) Media_zero
  ∧ (undecodable d "mpris:trackid" → ID t = "")
  ∧ (undecodable d "mpris:length" → Length t = 0)
  ∧ (undecodable d "mpris:artUrl" → ArtURL t = "")
  ∧ (undecodable d "xesam:artist" → Artist t = "")
  ∧ (undecodable d "xesam:album" → Album t = "")
  ∧ (undecodable d "xesam:albumArtist" → AlbumArtist t = "")
  ∧ (undecodable d "xesam:title" → Title t = "")
  ∧ (undecodable d "xesam:genre" → Genre t = "")
  ∧ (undecodable d "xesam:contentCreated" → Year t = 0)
  ∧ (undecodable d "xesam:url" → URL t = "").
Proof.
  intros t. split; [reflexivity|]. subst t.
  replace (decodeTrack parse (VDict d))
    with (decodeMetadata parse (VDict d) Media_zero) by reflexivity.
  rewrite decodeMetadata_dict. unfold decodeFields, field, undecodable; simpl.
  repeat split;
    (intros [-> | (v & -> & Hw)]; [reflexivity|];
     revert Hw; unfold wellTyped; decide_keys; destruct v; simpl; congruence).
Qed.

Lemma X5_earlier_decoder_resets_witness :
  let d : gmap string Variant :=
    {[ "xesam:title" := VString "Second"; "xesam:album" := VInt64 3 ]} in
  Album (decodeTrack sampleParse (VDict d)).1 = ""
  ∧ Year (decodeTrack sampleParse (VDict d)).1 = 0.
Proof.
  intros d.
  destruct (X5_earlier_decoder_resets sampleParse d)
    as (_ & _ & _ & _ & _ & Halbum & _ & _ & _ & Hyear & _).
  split.
  - apply Halbum. right. exists (VInt64 3). split; reflexivity.
  - apply Hyear. left. reflexivity.
Defined.

(** ** Change batches *)

(** X6. The state after a batch does not depend on the order in which the
    batch is ranged over; the change list holds the same names, in an order
    that may differ. *)
Theorem X6_batch_any_order (parse : string → option Z) (p : Player)
    (d : gmap string Variant) (kvs1 kvs2 : list (string * Variant)) :
  range_of d kvs1 → range_of d kvs2 →
  (UpdateProperties parse p kvs1).1 = (UpdateProperties parse p kvs2).1
  ∧ (UpdateProperties parse p kvs1).2 ≡ₚ (UpdateProperties parse p kvs2).2.
Proof.
  intros H1 H2. split.
  - unfold UpdateProperties; simpl. do 2 f_equal.
    by rewrite (applyBatch_state parse d kvs1 _ H1),
               (applyBatch_state parse d kvs2 _ H2).
  - apply NoDup_Permutation.
    + by eapply UpdateProperties_NoDup.
    + by eapply UpdateProperties_NoDup.
    + intros k.
      by rewrite (UpdateProperties_changeList parse p d kvs1 k H1),
                 (UpdateProperties_changeList parse p d kvs2 k H2).
Qed.

Lemma X6_batch_any_order_witness :
  (UpdateProperties sampleParse freshPlayer (map_to_list bogusBatch)).1
  = (UpdateProperties sampleParse freshPlayer (reverse (map_to_list bogusBatch))).1
  ∧ (UpdateProperties sampleParse freshPlayer (map_to_list bogusBatch)).2
    ≡ₚ (UpdateProperties sampleParse freshPlayer (reverse (map_to_list bogusBatch))).2.
Proof.
  apply (X6_batch_any_order sampleParse freshPlayer bogusBatch).
  - unfold range_of. reflexivity.
  - unfold range_of. apply reverse_Permutation.
Defined.

(** The change list against the change of each field. *)
Lemma changeList_exact (parse : string → option Z) (p : Player)
    (d : gmap string Variant) (kvs : list (string * Variant)) :
  range_of d kvs →
  let r := UpdateProperties parse p kvs in
  ("Shuffle" ∈ r.2
     ↔ props_Shuffle (state_of r.1) ≠ props_Shuffle (state_of p))
  ∧ ("PlaybackStatus" ∈ r.2
     ↔ props_PlaybackStatus (state_of r.1) ≠ props_PlaybackStatus (state_of p))
  ∧ ("LoopStatus" ∈ r.2
     ↔ props_LoopStatus (state_of r.1) ≠ props_LoopStatus (state_of p))
  ∧ ("Metadata" ∉ r.2 → props_Media (state_of r.1) = props_Media (state_of p)).
Proof.
  intros Hr r. subst r.
  rewrite !(UpdateProperties_changeList parse p d kvs _ Hr).
  rewrite (UpdateProperties_state parse p d kvs Hr).
  unfold batchState, field, accepted; simpl.
  split; [|split; [|split]].
  - destruct (d !! "Shuffle") as [v|]; [|split; [by intros (? & ? & _)|done]].
    split.
    + intros (v' & [= <-] & Hacc). destruct v; try discriminate. simpl.
      apply bool_decide_eq_true in Hacc. congruence.
    + intros Hne. exists v. split; [done|].
      destruct v; try done. simpl in *. apply bool_decide_eq_true. congruence.
  - destruct (d !! "PlaybackStatus") as [v|]; [|split; [by intros (? & ? & _)|done]].
    split.
    + intros (v' & [= <-] & Hacc). destruct v; try discriminate. simpl.
      apply andb_true_iff in Hacc as [-> Hacc].
      apply bool_decide_eq_true in Hacc. congruence.
    + intros Hne. exists v. split; [done|].
      destruct v; try done. simpl in *.
      destruct (PlaybackStatus_IsValid s); [|done]. simpl.
      apply bool_decide_eq_true. congruence.
  - destruct (d !! "LoopStatus") as [v|]; [|split; [by intros (? & ? & _)|done]].
    split.
    + intros (v' & [= <-] & Hacc). destruct v; try discriminate.
      apply bool_decide_eq_true in Hacc. congruence.
    + intros Hne. exists v. split; [done|].
      destruct v; try done. apply bool_decide_eq_true. congruence.
  - intros Hn. destruct (d !! "Metadata") as [v|]; [|done].
    destruct v; try reflexivity. destruct Hn. by eexists.
Qed.

(** X7. The change list reports "Shuffle", "PlaybackStatus" and
    "LoopStatus" exactly when the batch changed that cached field; the
    cached track changes only if "Metadata" is reported. *)
Theorem X7_change_list_exact (parse : string → option Z) (p : Player)
    (d : gmap string Variant) (kvs : list (string * Variant)) :
  range_of d kvs →
  let r := UpdateProperties parse p kvs in
  ("Shuffle" ∈ r.2
     ↔ props_Shuffle (state_of r.1) ≠ props_Shuffle (state_of p))
  ∧ ("PlaybackStatus" ∈ r.2
     ↔ props_PlaybackStatus (state_of r.1) ≠ props_PlaybackStatus (state_of p))
  ∧ ("LoopStatus" ∈ r.2
     ↔ props_LoopStatus (state_of r.1) ≠ props_LoopStatus (state_of p))
  ∧ ("Metadata" ∉ r.2 → props_Media (state_of r.1) = props_Media (state_of p)).
Proof. exact (changeList_exact parse p d kvs). Qed.

Lemma X7_change_list_exact_witness :
  let r := UpdateProperties sampleParse
             (playerWith silentObject (Some playingProperties))
             (map_to_list bogusBatch) in
  ("Shuffle" ∈ r.2
     ↔ props_Shuffle (state_of r.1) ≠ false)
  ∧ ("PlaybackStatus" ∈ r.2
     ↔ props_PlaybackStatus (state_of r.1) ≠ PlaybackStatusPlaying).
Proof.
  intros r.
  destruct (X7_change_list_exact sampleParse
              (playerWith silentObject (Some playingProperties))
              bogusBatch (map_to_list bogusBatch)) as (HS & HP & _).
  - unfold range_of. reflexivity.
  - split; [exact HS | exact HP].
Defined.

(** X8. An empty change list means the batch left the cached state as it
    was: the listener skips its callback only when nothing changed. *)
Theorem X8_empty_change_list (parse : string → option Z) (p : Player)
    (d : gmap string Variant) (kvs : list (string * Variant)) :
  range_of d kvs →
  (UpdateProperties parse p kvs).2 = [] →
  state_of (UpdateProperties parse p kvs).1 = state_of p.
Proof.
  intros Hr Hnil.
  destruct (changeList_exact parse p d kvs Hr) as (HS & HP & HL & HM).
  rewrite Hnil in HS, HP, HL, HM.
  apply properties_ext.
  - apply dec_stable. intros Hne. apply HP in Hne. by apply elem_of_nil in Hne.
  - apply dec_stable. intros Hne. apply HL in Hne. by apply elem_of_nil in Hne.
  - apply dec_stable. intros Hne. apply HS in Hne. by apply elem_of_nil in Hne.
  - apply HM. apply not_elem_of_nil.
Qed.

Lemma X8_empty_change_list_witness :
  let p := playerWith silentObject (Some playingProperties) in
  let d : gmap string Variant :=
    {[ "PlaybackStatus" := VString "Playing"; "Metadata" := VString "no bag" ]} in
  state_of (UpdateProperties sampleParse p (map_to_list d)).1 = state_of p.
Proof.
  intros p d. apply (X8_empty_change_list sampleParse p d).
  - unfold range_of. reflexivity.
  - reflexivity.
Defined.

Lemma updateEntry_statusesValid parse ps cl kv :
  statusesValid ps → statusesValid (updateEntry parse (ps, cl) kv).1.
Proof.
  destruct kv as [k v]. rewrite updateEntry_state.
  unfold statusesValid, batchState; simpl. rewrite !field_singleton.
  intros [HP HL]. split.
  - case_decide; [|exact HP]. destruct v; try exact HP. simpl.
    destruct (PlaybackStatus_IsValid s) eqn:E; [|exact HP].
    apply IsValid_PlaybackStatus in E. by right.
  - case_decide; [|exact HL]. destruct v; try exact HL. simpl.
    destruct (LoopStatus_IsValid s) eqn:E.
    + apply IsValid_LoopStatus in E. by right.
    + by right; left.
Qed.

Lemma applyBatch_statusesValid parse kvs : ∀ ps cl,
  statusesValid ps → statusesValid (foldl (updateEntry parse) (ps, cl) kvs).1.
Proof.
  induction kvs as [|kv kvs IH]; intros ps cl Hv; simpl; [exact Hv|].
  destruct (updateEntry parse (ps, cl) kv) as [ps1 cl1] eqn:E.
  apply IH. replace ps1 with (updateEntry parse (ps, cl) kv).1 by (by rewrite E).
  by apply updateEntry_statusesValid.
Qed.

Lemma UpdateProperties_statusesValid parse p kvs :
  statusesValid (state_of p) →
  statusesValid (state_of (UpdateProperties parse p kvs).1).
Proof.
  intros Hv. unfold UpdateProperties, state_of, applyBatch; simpl.
  apply applyBatch_statusesValid.
  unfold state_of in Hv. by destruct (player_properties p).
Qed.

(** X9. Whatever batches arrive, in whatever order their entries are
    taken, the cached playback and loop statuses stay members of their
    enumerations (or the zero value they started from): no batch can store
    an unknown status. *)
Theorem X9_statuses_stay_valid (parse : string → option Z) (p : Player)
    (batches : list (list (string * Variant))) :
  statusesValid (state_of p) →
  statusesValid (state_of (applyBatches parse p batches)).
Proof.
  revert p. induction batches as [|kvs batches IH]; intros p Hv; simpl; [exact Hv|].
  apply IH. by apply UpdateProperties_statusesValid.
Qed.

Lemma X9_statuses_stay_valid_witness :
  statusesValid
    (state_of (applyBatches sampleParse freshPlayer
                 [map_to_list bogusBatch; map_to_list (metadataBatch firstTrack)])).
Proof.
  apply (X9_statuses_stay_valid sampleParse freshPlayer).
  split; left.
Defined.

(** ** The control surface *)

Lemma capability_spec p prop :
  capability p prop
  = ([OpGetProperty (playerMember prop)],
     Returns (answersTrue (GetProperty (obj p) (playerMember prop)))).
Proof.
  unfold capability, getPlayerProp, playerMember, mbind, Exec_bind; simpl.
  destruct (GetProperty _ _) as [[]|]; simpl; try reflexivity.
  by destruct b.
Qed.

Lemma rootCapability_spec p prop :
  rootCapability p prop
  = ([OpGetProperty (rootMember prop)],
     Returns (answersTrue (GetProperty (obj p) (rootMember prop)))).
Proof.
  unfold rootCapability, getRootProp, rootMember, mbind, Exec_bind; simpl.
  destruct (GetProperty _ _) as [[]|]; simpl; try reflexivity.
  by destruct b.
Qed.

Lemma gated_shape query method op args p :
  (ok ← (([OpGetProperty query],
          Returns (answersTrue (GetProperty (obj p) query))) : Exec bool);
   if negb ok then ret (Some (Errorf_s op ErrUnsupported)) else
   err ← (([OpCall method args], Returns (Call (obj p) method args))
          : Exec (option error));
   match err with
   | Some e => ret (Some (Errorf_w op e))
   | None => ret None
   end)
  = gated query method op args p.
Proof.
  unfold gated, mbind, Exec_bind, ret, mret, Exec_ret, transport, unsupported.
  destruct (answersTrue _); simpl; [|reflexivity].
  by destruct (Call _ _ _).
Qed.

Lemma Raise_spec p :
  Raise p = gated (rootMember "CanRaise") (rootMember "Raise") "mpris.Raise" [] p.
Proof.
  unfold Raise, CanRaise. rewrite rootCapability_spec. apply gated_shape.
Qed.

Lemma Quit_spec p :
  Quit p = gated (rootMember "CanQuit") (rootMember "Quit") "mpris.Quit" [] p.
Proof.
  unfold Quit, CanQuit. rewrite rootCapability_spec. apply gated_shape.
Qed.

Lemma Next_spec p :
  Next p = gated (playerMember "CanGoNext") (playerMember "Next") "mpris.Next" [] p.
Proof.
  unfold Next, CanGoNext. rewrite capability_spec. apply gated_shape.
Qed.

Lemma Previous_spec p :
  Previous p
  = gated (playerMember "CanGoPrevious") (playerMember "Previous")
          "mpris.Previous" [] p.
Proof.
  unfold Previous, CanGoPrevious. rewrite capability_spec. apply gated_shape.
Qed.

Lemma Seek_spec p seconds :
  Seek p seconds
  = gated (playerMember "CanSeek") (playerMember "Seek") "mpris.Seek"
          [VInt64 (seekMicroseconds seconds)] p.
Proof.
  unfold Seek, CanSeek. rewrite capability_spec. apply gated_shape.
Qed.

Lemma cached_spec (target : PlaybackStatus) (k : Exec (option error)) p :
  (s ← cachedStatus p; if decide (s = target) then ret None else k)
  = match player_properties p with
    | None => ([], NilDereference)
    | Some ps =>
        if decide (props_PlaybackStatus ps = target) then ([], Returns None)
        else k
    end.
Proof.
  unfold cachedStatus, mbind, Exec_bind, ret, mret, Exec_ret.
  destruct (player_properties p) as [ps|]; [|reflexivity]. simpl.
  destruct (decide _); [reflexivity|]. by destruct k.
Qed.

Lemma Play_spec p :
  Play p
  = match player_properties p with
    | None => ([], NilDereference)
    | Some ps =>
        if decide (props_PlaybackStatus ps = PlaybackStatusPlaying)
        then ([], Returns None)
        else gated (playerMember "CanPlay") (playerMember "Play") "mpris.Play" [] p
    end.
Proof.
  unfold Play. rewrite cached_spec.
  destruct (player_properties p) as [ps|]; [|reflexivity].
  destruct (decide _); [reflexivity|].
  unfold CanPlay. rewrite capability_spec. apply gated_shape.
Qed.

Lemma Pause_spec p :
  Pause p
  = match player_properties p with
    | None => ([], NilDereference)
    | Some ps =>
        if decide (props_PlaybackStatus ps = PlaybackStatusPaused)
        then ([], Returns None)
        else gated (playerMember "CanPause") (playerMember "Pause") "mpris.Pause" [] p
    end.
Proof.
  unfold Pause. rewrite cached_spec.
  destruct (player_properties p) as [ps|]; [|reflexivity].
  destruct (decide _); [reflexivity|].
  unfold CanPause. rewrite capability_spec. apply gated_shape.
Qed.

Lemma Stop_spec p :
  Stop p
  = match player_properties p with
    | None => ([], NilDereference)
    | Some ps =>
        if decide (props_PlaybackStatus ps = PlaybackStatusStopped)
        then ([], Returns None)
        else gated (playerMember "CanControl") (playerMember "Stop") "mpris.Stop" [] p
    end.
Proof.
  unfold Stop. rewrite cached_spec.
  destruct (player_properties p) as [ps|]; [|reflexivity].
  destruct (decide _); [reflexivity|].
  unfold CanControl. rewrite capability_spec. apply gated_shape.
Qed.

Lemma PlayPause_spec p :
  PlayPause p
  = if answersTrue (GetProperty (obj p) (playerMember "CanPause")) then
      if answersTrue (GetProperty (obj p) (playerMember "CanPlay")) then
        ([OpGetProperty (playerMember "CanPause");
          OpGetProperty (playerMember "CanPlay");
          OpCall (playerMember "PlayPause") []],
         Returns (transport "mpris.PlayPause"
                    (Call (obj p) (playerMember "PlayPause") [])))
      else ([OpGetProperty (playerMember "CanPause");
             OpGetProperty (playerMember "CanPlay")],
            Returns (Some (unsupported "mpris.PlayPause")))
    else ([OpGetProperty (playerMember "CanPause")],
          Returns (Some (unsupported "mpris.PlayPause"))).
Proof.
  unfold PlayPause, CanPause, CanPlay. rewrite !capability_spec.
  unfold makePlayerCall, mbind, Exec_bind, ret, mret, Exec_ret, transport,
    unsupported, playerMember.
  destruct (answersTrue _); simpl; [|reflexivity].
  destruct (answersTrue _); simpl; [|reflexivity].
  by destruct (Call _ _ _).
Qed.

Lemma answersTrue_true r : answersTrue r = true ↔ r = inl (VBool true).
Proof.
  split; [|by intros ->]. destruct r as [[]|]; try discriminate.
  by destruct b.
Qed.

Lemma gated_called query method op args p o :
  o ∈ (gated query method op args p).1 → isCall o = true →
  GetProperty (obj p) query = inl (VBool true).
Proof.
  unfold gated. destruct (answersTrue _) eqn:E.
  - intros _ _. by apply answersTrue_true.
  - simpl. intros [->|[]%elem_of_nil]%elem_of_cons. discriminate.
Qed.

Lemma cached_called (target : PlaybackStatus) (k : Exec (option error)) p o :
  o ∈ (match player_properties p with
       | None => ([], NilDereference)
       | Some ps =>
           if decide (props_PlaybackStatus ps = target) then ([], Returns None)
           else k
       end).1 →
  o ∈ k.1.
Proof.
  destruct (player_properties p) as [ps|]; [|by intros []%elem_of_nil].
  destruct (decide _); [by intros []%elem_of_nil | done].
Qed.

Lemma PlayPause_called p o :
  o ∈ (PlayPause p).1 → isCall o = true →
  GetProperty (obj p) (playerMember "CanPause") = inl (VBool true)
  ∧ GetProperty (obj p) (playerMember "CanPlay") = inl (VBool true).
Proof.
  rewrite PlayPause_spec. intros Hin Ho.
  destruct (answersTrue (GetProperty (obj p) (playerMember "CanPause"))) eqn:E1;
    [|simpl in Hin; apply elem_of_cons in Hin as [->|[]%elem_of_nil]; discriminate].
  destruct (answersTrue (GetProperty (obj p) (playerMember "CanPlay"))) eqn:E2.
  - split; by apply answersTrue_true.
  - simpl in Hin. apply elem_of_cons in Hin as [->|Hin]; [discriminate|].
    apply elem_of_cons in Hin as [->|[]%elem_of_nil]. discriminate.
Qed.

(** X10. No operation of the control surface invokes its remote method
    unless the capability it is gated by was queried and answered true;
    [PlayPause] needs both CanPause and CanPlay. *)
Theorem X10_no_call_without_capability (p : Player) (seconds : Z) (o : RemoteOp) :
  isCall o = true →
  (o ∈ (Raise p).1 → GetProperty (obj p) (rootMember "CanRaise") = inl (VBool true))
  ∧ (o ∈ (Quit p).1 → GetProperty (obj p) (rootMember "CanQuit") = inl (VBool true))
  ∧ (o ∈ (Play p).1 → GetProperty (obj p) (playerMember "CanPlay") = inl (VBool true))
  ∧ (o ∈ (Pause p).1 → GetProperty (obj p) (playerMember "CanPause") = inl (VBool true))
  ∧ (o ∈ (Stop p).1 → GetProperty (obj p) (playerMember "CanControl") = inl (VBool true))
  ∧ (o ∈ (Next p).1 → GetProperty (obj p) (playerMember "CanGoNext") = inl (VBool true))
  ∧ (o ∈ (Previous p).1
     → GetProperty (obj p) (playerMember "CanGoPrevious") = inl (VBool true))
  ∧ (o ∈ (Seek p seconds).1
     → GetProperty (obj p) (playerMember "CanSeek") = inl (VBool true))
  ∧ (o ∈ (PlayPause p).1
     → GetProperty (obj p) (playerMember "CanPause") = inl (VBool true)
       ∧ GetProperty (obj p) (playerMember "CanPlay") = inl (VBool true)).
Proof.
  intros Ho.
  split; [intros Hin; rewrite Raise_spec in Hin; by eapply gated_called|].
  split; [intros Hin; rewrite Quit_spec in Hin; by eapply gated_called|].
  split; [intros Hin; rewrite Play_spec in Hin; apply cached_called in Hin;
          by eapply gated_called|].
  split; [intros Hin; rewrite Pause_spec in Hin; apply cached_called in Hin;
          by eapply gated_called|].
  split; [intros Hin; rewrite Stop_spec in Hin; apply cached_called in Hin;
          by eapply gated_called|].
  split; [intros Hin; rewrite Next_spec in Hin; by eapply gated_called|].
  split; [intros Hin; rewrite Previous_spec in Hin; by eapply gated_called|].
  split; [intros Hin; rewrite Seek_spec in Hin; by eapply gated_called|].
  intros Hin. by apply (PlayPause_called p o).
Qed.

Lemma X10_no_call_without_capability_witness :
  let p := playerWith (answering (VBool true)) (Some pausedProperties) in
  GetProperty (obj p) (playerMember "CanPlay") = inl (VBool true)
  ∧ GetProperty (obj p) (playerMember "CanGoNext") = inl (VBool true).
Proof.
  intros p.
  destruct (X10_no_call_without_capability p 0 (OpCall (playerMember "Play") []))
    as (_ & _ & HPlay & _); [reflexivity|].
  destruct (X10_no_call_without_capability p 0 (OpCall (playerMember "Next") []))
    as (_ & _ & _ & _ & _ & HNext & _); [reflexivity|].
  split.
  - apply HPlay. vm_compute. right. left.
  - apply HNext. vm_compute. right. left.
Defined.

(** X11. With its gate open, an operation makes one query and one call of
    its own method, and returns nil when the call succeeds and the bus's
    error wrapped under the operation's name when it fails; [Play], [Pause]
    and [Stop] do so whenever the cached status is not yet their target. *)
Theorem X11_open_gate (p : Player) (ps : properties) :
  player_properties p = Some ps →
  let sent (cap method op : string) :=
    ([OpGetProperty (playerMember cap); OpCall (playerMember method) []],
     Returns (transport op (Call (obj p) (playerMember method) []))) in
  let yes (cap : string) :=
    GetProperty (obj p) (playerMember cap) = inl (VBool true) in
  (yes "CanPlay" → props_PlaybackStatus ps ≠ PlaybackStatusPlaying →
     Play p = sent "CanPlay" "Play" "mpris.Play")
  ∧ (yes "CanPause" → props_PlaybackStatus ps ≠ PlaybackStatusPaused →
     Pause p = sent "CanPause" "Pause" "mpris.Pause")
  ∧ (yes "CanControl" → props_PlaybackStatus ps ≠ PlaybackStatusStopped →
     Stop p = sent "CanControl" "Stop" "mpris.Stop")
  ∧ (yes "CanGoNext" → Next p = sent "CanGoNext" "Next" "mpris.Next")
  ∧ (yes "CanGoPrevious" →
     Previous p = sent "CanGoPrevious" "Previous" "mpris.Previous").
Proof.
  intros Hps sent yes. subst sent yes. simpl.
  rewrite Play_spec, Pause_spec, Stop_spec, Next_spec, Previous_spec, Hps.
  unfold gated.
  repeat split; intros ->; simpl; try intros Hne;
    try (destruct (decide _); [done|]); reflexivity.
Qed.

Lemma X11_open_gate_witness :
  let p := playerWith (answering (VBool true)) (Some pausedProperties) in
  Play p = ([OpGetProperty "org.mpris.MediaPlayer2.Player.CanPlay";
             OpCall "org.mpris.MediaPlayer2.Player.Play" []], Returns None)
  ∧ Next p = ([OpGetProperty "org.mpris.MediaPlayer2.Player.CanGoNext";
               OpCall "org.mpris.MediaPlayer2.Player.Next" []], Returns None).
Proof.
  intros p.
  destruct (X11_open_gate p pausedProperties) as (HPlay & _ & _ & HNext & _);
    [reflexivity|].
  split.
  - apply HPlay; [reflexivity | discriminate].
  - apply HNext. reflexivity.
Defined.

Lemma seekMicroseconds_exact seconds :
  -9223372036 ≤ seconds ≤ 9223372036 →
  seekMicroseconds seconds = seconds * 1000000.
Proof.
  intros Hr. unfold seekMicroseconds, int64, time_Second.
  rewrite Z.mod_small by lia.
  replace (seconds * 1000000000 + 2 ^ 63 - 2 ^ 63) with (seconds * 1000000 * 1000)
    by lia.
  apply Z.quot_mul. lia.
Qed.

(** X12. [Seek] sends the offset in microseconds, [seconds * 1000000], for
    every offset up to 9223372036 seconds either way; beyond, the
    nanosecond product wraps in 64 bits, and one second more already sends a
    negative offset. *)
Theorem X12_seek_microseconds (p : Player) (seconds : Z) :
  GetProperty (obj p) (playerMember "CanSeek") = inl (VBool true) →
  -9223372036 ≤ seconds ≤ 9223372036 →
  (Seek p seconds).1
  = [OpGetProperty (playerMember "CanSeek");
     OpCall (playerMember "Seek") [VInt64 (seconds * 1000000)]]
  ∧ seekMicroseconds 9223372037 < 0.
Proof.
  intros Hcap Hr. rewrite Seek_spec. unfold gated. rewrite Hcap. simpl.
  rewrite (seekMicroseconds_exact seconds Hr). split; [reflexivity|].
  vm_compute. reflexivity.
Qed.

Lemma X12_seek_microseconds_witness :
  (Seek (playerWith (answering (VBool true)) None) (-10)).1
  = [OpGetProperty "org.mpris.MediaPlayer2.Player.CanSeek";
     OpCall "org.mpris.MediaPlayer2.Player.Seek" [VInt64 (-10000000)]].
Proof.
  apply (X12_seek_microseconds (playerWith (answering (VBool true)) None) (-10)).
  - reflexivity.
  - lia.
Defined.

(** X13. [PlayPause] asks for CanPause first and stops at a refusal
    without asking for CanPlay; it calls the remote method only when both
    answered true, and never reads the cached state. *)
Theorem X13_play_pause (p : Player) :
  let canPause := GetProperty (obj p) (playerMember "CanPause") in
  let canPlay := GetProperty (obj p) (playerMember "CanPlay") in
  (canPause ≠ inl (VBool true) →
     PlayPause p = ([OpGetProperty (playerMember "CanPause")],
                    Returns (Some (unsupported "mpris.PlayPause"))))
  ∧ (canPause = inl (VBool true) → canPlay ≠ inl (VBool true) →
     PlayPause p = ([OpGetProperty (playerMember "CanPause");
                     OpGetProperty (playerMember "CanPlay")],
                    Returns (Some (unsupported "mpris.PlayPause"))))
  ∧ (canPause = inl (VBool true) → canPlay = inl (VBool true) →
     PlayPause p = ([OpGetProperty (playerMember "CanPause");
                     OpGetProperty (playerMember "CanPlay");
                     OpCall (playerMember "PlayPause") []],
                    Returns (transport "mpris.PlayPause"
                               (Call (obj p) (playerMember "PlayPause") [])))).
Proof.
  intros canPause canPlay. subst canPause canPlay. rewrite PlayPause_spec.
  split; [|split].
  - intros Hn. destruct (answersTrue _) eqn:E; [|reflexivity].
    by apply answersTrue_true in E.
  - intros -> Hn. simpl. destruct (answersTrue _) eqn:E; [|reflexivity].
    by apply answersTrue_true in E.
  - by intros -> ->.
Qed.

Lemma X13_play_pause_witness :
  PlayPause (playerWith silentObject None)
  = ([OpGetProperty "org.mpris.MediaPlayer2.Player.CanPause"],
     Returns (Some (unsupported "mpris.PlayPause")))
  ∧ PlayPause (playerWith (answering (VBool true)) None)
    = ([OpGetProperty "org.mpris.MediaPlayer2.Player.CanPause";
        OpGetProperty "org.mpris.MediaPlayer2.Player.CanPlay";
        OpCall "org.mpris.MediaPlayer2.Player.PlayPause" []],
       Returns None).
Proof.
  split.
  - apply (X13_play_pause (playerWith silentObject None)). discriminate.
  - apply (X13_play_pause (playerWith (answering (VBool true)) None));
      reflexivity.
Defined.

Lemma gated_error query method op args p e :
  (gated query method op args p).2 = Returns (Some e) →
  (e = Errorf_s op ErrUnsupported
   ∧ GetProperty (obj p) query ≠ inl (VBool true))
  ∨ (∃ te, Call (obj p) method args = Some te
           ∧ GetProperty (obj p) query = inl (VBool true)
           ∧ e = Errorf_w op te).
Proof.
  unfold gated. destruct (answersTrue _) eqn:E; simpl.
  - destruct (Call _ _ _) as [te|] eqn:EC; simpl; [|discriminate].
    intros [= <-]. right. exists te.
    split; [done|]. split; [by apply answersTrue_true | done].
  - intros [= <-]. left. split; [reflexivity|].
    intros H. apply answersTrue_true in H. congruence.
Qed.

Lemma cached_error (target : PlaybackStatus) (k : Exec (option error)) p e :
  (match player_properties p with
   | None => ([], NilDereference)
   | Some ps =>
       if decide (props_PlaybackStatus ps = target) then ([], Returns None)
       else k
   end).2 = Returns (Some e) →
  k.2 = Returns (Some e).
Proof.
  destruct (player_properties p) as [ps|]; [|discriminate].
  destruct (decide _); [discriminate | done].
Qed.

(** X14. An error returned by a gated operation is of one of two kinds,
    and which one is decided by the capability.  When the capability did not
    answer true it is the unsupported error, made with a plain format: it
    reads "<operation>: unsupported" and has nothing to unwrap, so the
    package's ErrUnsupported cannot be recovered from it.  When the
    capability answered true it is the error the operation's own call
    returned, wrapped under the operation's name, and [Unwrap] gives that
    error back. *)
Theorem X14_error_chain (p : Player) (seconds : Z) (e : error) :
  let kinds (x : Exec (option error)) (op query method : string)
            (args : list any) :=
    x.2 = Returns (Some e) →
    (GetProperty (obj p) query ≠ inl (VBool true)
     ∧ e = Errorf_s op ErrUnsupported
     ∧ Unwrap e = None
     ∧ Error e = op +:+ ": unsupported")
    ∨ (∃ te, GetProperty (obj p) query = inl (VBool true)
             ∧ Call (obj p) method args = Some te
             ∧ e = Errorf_w op te
             ∧ Unwrap e = Some te
             ∧ Error e = op +:+ ": " +:+ Error te) in
  kinds (Raise p) "mpris.Raise" (rootMember "CanRaise") (rootMember "Raise") []
  ∧ kinds (Quit p) "mpris.Quit" (rootMember "CanQuit") (rootMember "Quit") []
  ∧ kinds (Play p) "mpris.Play" (playerMember "CanPlay") (playerMember "Play") []
  ∧ kinds (Pause p) "mpris.Pause" (playerMember "CanPause")
          (playerMember "Pause") []
  ∧ kinds (Stop p) "mpris.Stop" (playerMember "CanControl")
          (playerMember "Stop") []
  ∧ kinds (Next p) "mpris.Next" (playerMember "CanGoNext") (playerMember "Next") []
  ∧ kinds (Previous p) "mpris.Previous" (playerMember "CanGoPrevious")
          (playerMember "Previous") []
  ∧ kinds (Seek p seconds) "mpris.Seek" (playerMember "CanSeek")
          (playerMember "Seek") [VInt64 (seekMicroseconds seconds)].
Proof.
  intros kinds. subst kinds. cbv beta.
  assert (∀ query method op args,
            (gated query method op args p).2 = Returns (Some e) →
            (GetProperty (obj p) query ≠ inl (VBool true)
             ∧ e = Errorf_s op ErrUnsupported
             ∧ Unwrap e = None
             ∧ Error e = op +:+ ": unsupported")
            ∨ (∃ te, GetProperty (obj p) query = inl (VBool true)
                     ∧ Call (obj p) method args = Some te
                     ∧ e = Errorf_w op te
                     ∧ Unwrap e = Some te
                     ∧ Error e = op +:+ ": " +:+ Error te))
    as Hg.
  { intros query method op args H.
    destruct (gated_error query method op args p e H)
      as [(-> & Hq) | (te & Hc & Hq & ->)].
    - left. by repeat split.
    - right. exists te. by repeat split. }
  split; [rewrite Raise_spec; apply Hg|].
  split; [rewrite Quit_spec; apply Hg|].
  split; [rewrite Play_spec; intros H%cached_error; by apply Hg|].
  split; [rewrite Pause_spec; intros H%cached_error; by apply Hg|].
  split; [rewrite Stop_spec; intros H%cached_error; by apply Hg|].
  split; [rewrite Next_spec; apply Hg|].
  split; [rewrite Previous_spec; apply Hg|].
  rewrite Seek_spec; apply Hg.
Qed.

Lemma X14_error_chain_witness :
  let failing : BusObject :=
    mkBusObject (λ _, inl (VBool true))
                (λ _ _, Some (errors_New "org.freedesktop.DBus.Error.NoReply")) in
  let p := playerWith failing None in
  let e := Errorf_w "mpris.Next" (errors_New "org.freedesktop.DBus.Error.NoReply") in
  (GetProperty (obj p) (playerMember "CanGoNext") ≠ inl (VBool true)
   ∧ e = Errorf_s "mpris.Next" ErrUnsupported
   ∧ Unwrap e = None
   ∧ Error e = "mpris.Next" +:+ ": unsupported")
  ∨ (∃ te, GetProperty (obj p) (playerMember "CanGoNext") = inl (VBool true)
           ∧ Call (obj p) (playerMember "Next") [] = Some te
           ∧ e = Errorf_w "mpris.Next" te
           ∧ Unwrap e = Some te
           ∧ Error e = "mpris.Next" +:+ ": " +:+ Error te).
Proof.
  intros failing p e.
  destruct (X14_error_chain p 0 e) as (_ & _ & _ & _ & _ & HNext & _).
  apply HNext. reflexivity.
Defined.

(** ** The listener, message by message *)

Section ListenerMore.

Variable parse : string → option Z.
Variable range : gmap string Variant → list (string * Variant).

Lemma UpdateProperties_identity p kvs :
  let p' := (UpdateProperties parse p kvs).1 in
  Name p' = Name p ∧ ownerID p' = ownerID p ∧ obj p' = obj p
  ∧ destination p' = destination p ∧ is_Some (player_properties p').
Proof. simpl. repeat split. by eexists. Qed.

Lemma not_disconnects_name p msg :
  sig_Name msg ≠ signalNameOwnerChanged → ¬ disconnects p msg.
Proof. intros Hn [H _]. by apply Hn. Qed.

(** Every way one turn of the loop can go. *)
Lemma handleSignal_inv p msg :
  (¬ disconnects p msg
   ∧ ∃ logs, quiet logs ∧ handleSignal parse range p msg = Continue p logs)
  ∨ (¬ disconnects p msg
     ∧ sig_Name msg = signalNamePropertiesChanged
     ∧ sig_Sender msg = ownerID p
     ∧ ∃ body1 rest logs,
         sig_Body msg = VString interfacePathMprisMediaPlayer2Player :: body1 :: rest
         ∧ quiet logs
         ∧ let varMap := match body1 with VDict m => m | _ => ∅ end in
           let r := UpdateProperties parse p (range varMap) in
           handleSignal parse range p msg
           = Continue r.1
               (logs ++ if decide (0 < length r.2)%nat
                        then [OnPropertyChange (Name p) r.2] else []))
  ∨ (disconnects p msg
     ∧ handleSignal parse range p msg = BreakLoop [LogPlayerDisconnected (Name p)])
  ∨ (¬ disconnects p msg
     ∧ (length (sig_Body msg) < 2)%nat
     ∧ ∃ logs, quiet logs ∧ handleSignal parse range p msg = IndexPanic logs).
Proof.
  destruct msg as [sender name body].
  destruct (decide (name = signalNamePropertiesChanged)) as [->|Hpc].
  - assert (¬ disconnects p (mkSignal sender signalNamePropertiesChanged body)) as Hnd.
    { apply not_disconnects_name. simpl. intros H. by apply signal_names_differ. }
    unfold handleSignal; simpl.
    destruct (decide (signalNamePropertiesChanged = signalNamePropertiesChanged));
      [|done].
    destruct (decide (sender ≠ ownerID p)) as [Hs|Hs%dec_stable].
    { left. split; [done|]. exists []. split; [constructor | done]. }
    set (logs := if decide (length body ≠ 3%nat)
                 then [LogNotEnoughArgs (length body)] else []).
    assert (quiet logs) as Hq.
    { subst logs. destruct (decide _); repeat constructor. }
    destruct body as [|b0 body].
    { right; right; right. split; [done|]. split; [simpl; lia|]. by exists logs. }
    destruct b0 as [iface| | | | | | | |];
      try (left; split; [done|]; by exists logs).
    destruct (decide (iface = interfacePathMprisMediaPlayer2Player)) as [->|Hi];
      [|left; split; [done|]; by exists logs].
    destruct body as [|body1 rest].
    { right; right; right. split; [done|]. split; [simpl; lia|]. by exists logs. }
    right; left. split; [done|]. split; [done|]. split; [done|].
    exists body1, rest,
      (logs ++ match body1 with VDict _ => [] | _ => [LogInvalidBody] end).
    split; [done|]. split.
    { apply Forall_app. split; [exact Hq|]. destruct body1; repeat constructor. }
    cbv zeta.
    match goal with |- context [decide (0 < ?n)%nat] =>
      destruct (decide (0 < n)%nat) end;
      by rewrite <- ?app_assoc, ?app_nil_r.
  - destruct (decide (name = signalNameOwnerChanged)) as [->|Hoc].
    + destruct body as [|a [|b rest]].
      * right; right; right.
        split; [by intros (_ & H & _)|]. split; [simpl; lia|].
        exists []. split; [constructor|].
        apply handleSignal_ownerChanged_short.
      * assert (¬ disconnects p (mkSignal sender signalNameOwnerChanged [a])) as Hnd
          by (by intros (_ & _ & o & H & _)).
        unfold handleSignal; simpl.
        destruct (decide (signalNameOwnerChanged = signalNamePropertiesChanged));
          [done|].
        destruct (decide (signalNameOwnerChanged = signalNameOwnerChanged)); [|done].
        destruct a as [nm| | | | | | | |];
          try (left; split; [done|]; exists []; split; [constructor | done]).
        destruct (decide (nm = Name p)).
        -- right; right; right. split; [done|]. split; [simpl; lia|].
           exists []. split; [constructor | done].
        -- left. split; [done|]. exists []. split; [constructor | done].
      * rewrite handleSignal_ownerChanged.
        unfold disconnects, ownerChanged_name, ownerChanged_oldOwner; simpl.
        destruct a as [nm| | | | | | | |];
          try (left; split; [by intros (_ & [=] & _)|];
               exists []; split; [constructor | done]).
        destruct b as [o| | | | | | | |];
          try (left; split; [by intros (_ & _ & ? & [=] & _)|];
               exists []; split; [constructor | done]).
        destruct (decide (nm = Name p ∧ o ≠ "")) as [[-> Ho]|Hn].
        -- right; right; left. split; [|done].
           split; [done|]. split; [done|]. by exists o.
        -- left. split; [|exists []; split; [constructor | done]].
           intros (_ & [= ->] & o' & [= ->] & Ho). by apply Hn.
    + left. split; [by apply not_disconnects_name|].
      exists []. split; [constructor|].
      unfold handleSignal; simpl.
      destruct (decide (name = signalNamePropertiesChanged)); [done|].
      by destruct (decide (name = signalNameOwnerChanged)).
Qed.

Lemma disconnects_Name p p' msg :
  Name p' = Name p → disconnects p' msg ↔ disconnects p msg.
Proof. intros H. unfold disconnects. by rewrite H. Qed.

Lemma relevant_ownerID p p' :
  ownerID p' = ownerID p → relevant p' = relevant p.
Proof. intros H. unfold relevant. by rewrite H. Qed.

Lemma quiet_no_disconnect logs :
  quiet logs → Forall (λ e, isDisconnect e = false) logs.
Proof. intros Hq. eapply Forall_impl; [exact Hq|]. by intros e [? _]. Qed.

Lemma quiet_no_change logs n cl : quiet logs → OnPropertyChange n cl ∉ logs.
Proof.
  intros Hq Hin. apply (proj1 (Forall_forall _ _) Hq) in Hin as [_ Hin].
  discriminate Hin.
Qed.

(** What a turn that goes on leaves: the same endpoint, no disconnect
    callback, and property changes only in the endpoint's name, with the
    change list of a batch. *)
Lemma handleSignal_Continue p msg p' evs :
  handleSignal parse range p msg = Continue p' evs →
  Name p' = Name p ∧ ownerID p' = ownerID p
  ∧ ¬ disconnects p msg
  ∧ Forall (λ e, isDisconnect e = false) evs
  ∧ ∀ n cl, OnPropertyChange n cl ∈ evs →
      n = Name p ∧ cl ≠ []
      ∧ ∃ p0 m, cl = (UpdateProperties parse p0 (range m)).2.
Proof.
  intros H.
  destruct (handleSignal_inv p msg)
    as [(Hnd & logs & Hq & H1)
       | [(Hnd & _ & _ & body1 & rest & logs & _ & Hq & H1)
         | [(_ & H1) | (_ & _ & logs & _ & H1)]]];
    rewrite H1 in H; try discriminate.
  - injection H as <- <-.
    split; [done|]. split; [done|]. split; [done|].
    split; [by apply quiet_no_disconnect|].
    intros n cl Hin. by destruct (quiet_no_change logs n cl Hq).
  - cbv zeta in H. injection H as <- <-.
    split; [done|]. split; [done|]. split; [done|]. split.
    + apply Forall_app. split; [by apply quiet_no_disconnect|].
      destruct (decide _); repeat constructor.
    + intros n cl [Hin|Hin]%elem_of_app.
      * by destruct (quiet_no_change logs n cl Hq).
      * destruct (decide _) as [Hlen|]; [|by apply elem_of_nil in Hin].
        apply elem_of_cons in Hin as [[= -> ->]|Hin%elem_of_nil]; [|done].
        split; [done|]. split.
        -- intros Hnil. rewrite Hnil in Hlen. simpl in Hlen. lia.
        -- by eexists _, _.
Qed.

Lemma handleSignal_irrelevant p msg :
  relevant p msg = false → handleSignal parse range p msg = Continue p [].
Proof.
  unfold relevant. intros [H1 H2]%orb_false_iff.
  apply bool_decide_eq_false in H1, H2.
  unfold handleSignal.
  destruct (decide (sig_Name msg = signalNamePropertiesChanged)) as [Hn|Hn].
  - destruct (decide (sig_Sender msg ≠ ownerID p)) as [|Hs%dec_stable]; [done|].
    by destruct H1.
  - by destruct (decide (sig_Name msg = signalNameOwnerChanged)).
Qed.

Lemma listenLoop_inv msgs : ∀ p,
  let r := listenLoop parse range p msgs in
  Name r.1.1 = Name p ∧ ownerID r.1.1 = ownerID p
  ∧ Forall (λ e, isDisconnect e = false) r.1.2
  ∧ ∀ n cl, OnPropertyChange n cl ∈ r.1.2 →
      n = Name p ∧ cl ≠ []
      ∧ ∃ p0 m, cl = (UpdateProperties parse p0 (range m)).2.
Proof.
  induction msgs as [|msg msgs IH]; intros p; simpl.
  - split; [done|]. split; [done|]. split; [constructor|].
    by intros n cl H%elem_of_nil.
  - destruct (handleSignal parse range p msg) as [p' evs|evs|evs] eqn:H1; simpl.
    + destruct (handleSignal_Continue p msg _ _ H1) as (HN & HO & _ & HF & HC).
      destruct (IH p') as (HN' & HO' & HF' & HC').
      split; [by rewrite HN'|]. split; [by rewrite HO'|].
      split; [by apply Forall_app|].
      intros n cl [Hin|Hin]%elem_of_app; [by apply HC|].
      destruct (HC' n cl Hin) as (-> & ? & ?). by rewrite HN.
    + destruct (handleSignal_inv p msg)
        as [(_ & logs & _ & H2)
           | [(_ & _ & _ & body1 & rest & logs & _ & _ & H2)
             | [(_ & H2) | (_ & _ & logs & _ & H2)]]];
        rewrite H2 in H1; try discriminate.
      injection H1 as <-.
      split; [done|]. split; [done|]. split; [repeat constructor|].
      intros n cl [[=]|Hin%elem_of_nil]%elem_of_cons. done.
    + destruct (handleSignal_inv p msg)
        as [(_ & logs & _ & H2)
           | [(_ & _ & _ & body1 & rest & logs & _ & _ & H2)
             | [(_ & H2) | (_ & _ & logs & Hq & H2)]]];
        rewrite H2 in H1; try discriminate.
      injection H1 as <-.
      split; [done|]. split; [done|]. split; [by apply quiet_no_disconnect|].
      intros n cl Hin. by destruct (quiet_no_change logs n cl Hq).
Qed.

End ListenerMore.

Lemma app_split_fresh {A} (P : A → Prop) (l t before after : list A) (x : A) :
  Forall (λ y, ¬ P y) l → P x →
  l ++ t = before ++ x :: after →
  ∃ t1, before = l ++ t1 ∧ t = t1 ++ x :: after.
Proof.
  revert before. induction l as [|a l IH]; intros before Hl Hx Heq.
  - by exists before.
  - apply Forall_cons in Hl as [Ha Hl]. destruct before as [|b before].
    + simpl in Heq. injection Heq as -> _. by destruct Ha.
    + simpl in Heq. injection Heq as -> Heq.
      destruct (IH before Hl Hx Heq) as (t1 & -> & ->). by exists t1.
Qed.

Lemma teardown_split p close before after n :
  teardown p ++ close = before ++ OnDisconnect n :: after →
  Forall (λ e, isDisconnect e = false ∧ isPropertyChange e = false) close →
  n = Name p ∧ Forall (λ e, isPropertyChange e = false) after.
Proof.
  unfold teardown. intros Heq Hc.
  destruct before as [|b0 [|b1 before]]; simpl in Heq.
  - discriminate Heq.
  - injection Heq as _ -> <-. split; [done|].
    constructor; [done|]. constructor; [done|].
    eapply Forall_impl; [exact Hc|]. by intros e [_ ?].
  - injection Heq as _ _ Heq.
    assert (OnDisconnect n ∈ [RemoveMatchSignal signalNameOwnerChangedOpts;
                               RemoveMatchSignal signalPropertyChangeOpts] ++ close)
      as Hin.
    { simpl. rewrite Heq. apply elem_of_app. right. left. }
    simpl in Hin.
    apply elem_of_cons in Hin as [[=]|Hin].
    apply elem_of_cons in Hin as [[=]|Hin].
    apply (proj1 (Forall_forall _ _) Hc) in Hin as [Hin _]. discriminate Hin.
Qed.

(** X15. However the listener ends, the disconnect callback is called
    once, with the endpoint's name, and no property-change callback follows
    it; a listener that is still waiting has not called it. *)
Theorem X15_disconnect_once (parse : string → option Z)
    (range : gmap string Variant → list (string * Variant))
    (p : Player) (msgs : list Signal) (closed : bool) :
  let r := listener parse range p msgs closed in
  length (List.filter isDisconnect r.1.2)
  = match r.2 with Running => 0%nat | _ => 1%nat end
  ∧ ∀ before after n,
      r.1.2 = before ++ OnDisconnect n :: after →
      n = Name p ∧ Forall (λ e, isPropertyChange e = false) after.
Proof.
  intros r. subst r. unfold listener.
  destruct (listenLoop_inv parse range msgs p) as (HN & _ & HF & _).
  set (l := listenLoop parse range p msgs) in *.
  assert (List.filter isDisconnect l.1.2 = []) as Hnone.
  { induction HF as [|e evs He _ IH]; [done|]. simpl. by rewrite He. }
  assert (Forall (λ y, ¬ (λ e, isDisconnect e = true) y) l.1.2) as HF'.
  { eapply Forall_impl; [exact HF|]. intros e He. simpl. by rewrite He. }
  assert (∀ close before after n,
            Forall (λ e, isDisconnect e = false ∧ isPropertyChange e = false) close →
            l.1.2 ++ teardown l.1.1 ++ close = before ++ OnDisconnect n :: after →
            n = Name p ∧ Forall (λ e, isPropertyChange e = false) after) as Hsplit.
  { intros close before after n Hc Heq.
    destruct (app_split_fresh (λ e, isDisconnect e = true) _ _ before after
                (OnDisconnect n) HF' eq_refl Heq)
      as (t1 & _ & Ht).
    destruct (teardown_split _ _ _ _ _ Ht Hc) as [-> Ha]. by rewrite HN. }
  destruct (l.2); [destruct closed|..]; simpl.
  - split.
    + rewrite List.filter_app, Hnone. reflexivity.
    + intros before after n Heq. apply (Hsplit [] before after n); [constructor|].
      by rewrite app_nil_r.
  - split; [by rewrite Hnone|].
    intros before after n Heq.
    assert (OnDisconnect n ∈ l.1.2) as Hin
      by (rewrite Heq; apply elem_of_app; right; left).
    apply (proj1 (Forall_forall _ _) HF) in Hin. discriminate Hin.
  - split.
    + rewrite List.filter_app, Hnone. reflexivity.
    + intros before after n Heq.
      apply (Hsplit [CloseChannel] before after n); [by repeat constructor|].
      exact Heq.
  - split.
    + rewrite List.filter_app, Hnone. reflexivity.
    + intros before after n Heq.
      apply (Hsplit [CloseChannel] before after n); [by repeat constructor|].
      exact Heq.
Qed.

Lemma X15_disconnect_once_witness :
  let gone := mkSignal "org.freedesktop.DBus" signalNameOwnerChanged
                [VString "org.mpris.MediaPlayer2.vlc"; VString ":1.42"; VString ""] in
  "org.mpris.MediaPlayer2.vlc" = Name freshPlayer
  ∧ Forall (λ e, isPropertyChange e = false)
      [RemoveMatchSignal signalNameOwnerChangedOpts;
       RemoveMatchSignal signalPropertyChangeOpts; CloseChannel].
Proof.
  intros gone.
  destruct (X15_disconnect_once sampleParse map_to_list freshPlayer [gone] false)
    as [_ H].
  apply (H [LogPlayerDisconnected "org.mpris.MediaPlayer2.vlc"; RemoveSignal]).
  reflexivity.
Defined.

Lemma listenLoop_filter parse range msgs : ∀ p,
  listenLoop parse range p (List.filter (relevant p) msgs)
  = listenLoop parse range p msgs.
Proof.
  induction msgs as [|msg msgs IH]; intros p; [done|]. simpl.
  destruct (relevant p msg) eqn:E.
  - simpl. destruct (handleSignal parse range p msg) as [p' evs| |] eqn:H; try done.
    destruct (handleSignal_Continue parse range p msg p' evs H) as (_ & HO & _).
    by rewrite <- (relevant_ownerID p p' HO), IH.
  - rewrite (handleSignal_irrelevant parse range p msg E). simpl.
    rewrite IH. by destruct (listenLoop parse range p msgs) as [[??]?].
Qed.

(** X16. Messages the loop does not look into (other signals, and
    property changes sent by anyone but the endpoint's owner) can be taken
    out of the stream: the state, the events and the way the listener ends
    are the same. *)
Theorem X16_irrelevant_messages (parse : string → option Z)
    (range : gmap string Variant → list (string * Variant))
    (p : Player) (msgs : list Signal) (closed : bool) :
  listener parse range p (List.filter (relevant p) msgs) closed
  = listener parse range p msgs closed.
Proof. unfold listener. by rewrite listenLoop_filter. Qed.

(** X17. Every property-change callback of the listener names the
    endpoint and carries a change list that is not empty, holds only the
    four property names and, the runtime ranging over each entry of a bag
    once, none of them twice. *)
Theorem X17_property_change_events (parse : string → option Z)
    (range : gmap string Variant → list (string * Variant))
    (p : Player) (msgs : list Signal) (closed : bool) (n : string)
    (cl : list string) :
  (∀ m, range_of m (range m)) →
  OnPropertyChange n cl ∈ (listener parse range p msgs closed).1.2 →
  n = Name p ∧ cl ≠ [] ∧ NoDup cl
  ∧ ∀ k, k ∈ cl → k ∈ ["Shuffle"; "PlaybackStatus"; "LoopStatus"; "Metadata"].
Proof.
  intros Hrange Hin.
  destruct (listenLoop_inv parse range msgs p) as (_ & _ & _ & HC).
  assert (OnPropertyChange n cl ∈ (listenLoop parse range p msgs).1.2) as Hin'.
  { revert Hin. unfold listener, teardown.
    destruct ((listenLoop parse range p msgs).2); [destruct closed|..]; simpl;
      try done;
      (intros [H|H]%elem_of_app; [done|]; exfalso;
       repeat (apply elem_of_cons in H as [[=]|H]); by apply elem_of_nil in H). }
  destruct (HC n cl Hin') as (-> & Hne & p0 & m & ->).
  split; [done|]. split; [done|]. split.
  - by apply (UpdateProperties_NoDup parse p0 m).
  - intros k Hk.
    apply (UpdateProperties_changeList parse p0 m (range m) k (Hrange m)) in Hk
      as (v & _ & Hacc).
    by eapply accepted_keys.
Qed.

Lemma X17_property_change_events_witness :
  let msg := mkSignal ":1.42" signalNamePropertiesChanged
               [VString interfacePathMprisMediaPlayer2Player; VDict bogusBatch;
                VStrings []] in
  let cl := ["Shuffle"; "Metadata"; "LoopStatus"] in
  NoDup cl
  ∧ ∀ k, k ∈ cl → k ∈ ["Shuffle"; "PlaybackStatus"; "LoopStatus"; "Metadata"].
Proof.
  intros msg cl.
  destruct (X17_property_change_events sampleParse map_to_list freshPlayer [msg]
              false (Name freshPlayer) cl) as (_ & _ & Hnd & Hk).
  - intros m. unfold range_of. reflexivity.
  - vm_compute. left.
  - split; [exact Hnd | exact Hk].
Defined.

Lemma Exists_disconnects_Name p p' msgs :
  Name p' = Name p →
  Exists (disconnects p') msgs ↔ Exists (disconnects p) msgs.
Proof.
  intros HN. rewrite !Exists_exists.
  split; intros (msg & Hin & Hd); exists msg; (split; [done|]);
    by apply (disconnects_Name p p' msg HN).
Qed.

Lemma listenLoop_exit parse range msgs : ∀ p,
  Forall (λ msg, 2 ≤ length (sig_Body msg))%nat msgs →
  (Exists (disconnects p) msgs → (listenLoop parse range p msgs).2 = Broke)
  ∧ (¬ Exists (disconnects p) msgs → (listenLoop parse range p msgs).2 = Waiting).
Proof.
  induction msgs as [|msg msgs IH]; intros p Hwf.
  - split; [by intros H%Exists_nil | done].
  - apply Forall_cons in Hwf as [Hlen Hwf]. simpl.
    destruct (handleSignal_inv parse range p msg)
      as [(Hnd & logs & _ & H1)
         | [(Hnd & _ & _ & body1 & rest & logs & _ & _ & H1)
           | [(Hd & H1) | (_ & Hshort & _)]]]; [| | |lia].
    + rewrite H1. simpl. destruct (IH p Hwf) as [IH1 IH2]. split.
      * intros [Hd|Hex]%Exists_cons; [done | by apply IH1].
      * intros Hn. apply IH2. intros Hex. apply Hn. by right.
    + cbv zeta in H1. rewrite H1. simpl.
      match goal with |- context [listenLoop parse range ?q msgs] =>
        destruct (IH q Hwf) as [IH1 IH2];
        pose proof (Exists_disconnects_Name p q msgs eq_refl) as HE end.
      split.
      * intros [Hd|Hex]%Exists_cons; [done|]. apply IH1. by apply HE.
      * intros Hn. apply IH2. intros Hex. apply Hn. right. by apply HE.
    + rewrite H1. simpl. split; [done|]. intros Hn. destruct Hn. by left.
Qed.

(** X18. On messages that carry at least two arguments each, the way the
    listener ends is decided by the presence changes alone: it is torn down
    if some message names the endpoint with a non-empty old owner; if none
    does, it keeps waiting while the channel is open, and when the
    connection closes the channel its clean-up closes the channel a second
    time and panics. *)
Theorem X18_how_the_listener_ends (parse : string → option Z)
    (range : gmap string Variant → list (string * Variant))
    (p : Player) (msgs : list Signal) (closed : bool) :
  Forall (λ msg, 2 ≤ length (sig_Body msg))%nat msgs →
  (Exists (disconnects p) msgs →
     (listener parse range p msgs closed).2 = TornDown)
  ∧ (¬ Exists (disconnects p) msgs →
     (listener parse range p msgs closed).2 = if closed then Crashed else Running).
Proof.
  intros Hwf. destruct (listenLoop_exit parse range msgs p Hwf) as [H1 H2].
  unfold listener. split.
  - intros Hex. by rewrite (H1 Hex).
  - intros Hn. rewrite (H2 Hn). by destruct closed.
Qed.

Lemma X18_how_the_listener_ends_witness :
  let gone := mkSignal "org.freedesktop.DBus" signalNameOwnerChanged
                [VString "org.mpris.MediaPlayer2.vlc"; VString ":1.42"; VString ""] in
  let other := mkSignal "org.freedesktop.DBus" signalNameOwnerChanged
                 [VString "org.mpris.MediaPlayer2.mpv"; VString ":1.50"; VString ""] in
  (listener sampleParse map_to_list freshPlayer [other; gone; other] false).2 = TornDown
  ∧ (listener sampleParse map_to_list freshPlayer [other] true).2 = Crashed.
Proof.
  intros gone other. split.
  - apply (X18_how_the_listener_ends sampleParse map_to_list freshPlayer
             [other; gone; other] false).
    + repeat constructor.
    + right. left. split; [reflexivity|]. split; [reflexivity|].
      exists ":1.42". split; [reflexivity | discriminate].
  - apply (X18_how_the_listener_ends sampleParse map_to_list freshPlayer
             [other] true).
    + repeat constructor.
    + intros [(_ & H & _)|H%Exists_nil]%Exists_cons; [discriminate H | exact H].
Defined.

Lemma handleSignal_fromOwner parse range p body :
  handleSignal parse range p (mkSignal (ownerID p) signalNamePropertiesChanged body)
  = let logArgs := if decide (length body ≠ 3%nat)
                   then [LogNotEnoughArgs (length body)] else [] in
    match body with
    | [] => IndexPanic logArgs
    | VString iface :: rest =>
        if decide (iface = interfacePathMprisMediaPlayer2Player) then
          match rest with
          | [] => IndexPanic logArgs
          | body1 :: _ =>
              let varMap := match body1 with VDict m => m | _ => ∅ end in
              let logBody := match body1 with VDict _ => [] | _ => [LogInvalidBody] end in
              let r := UpdateProperties parse p (range varMap) in
              if decide (0 < length r.2)%nat
              then Continue r.1 (logArgs ++ logBody ++ [OnPropertyChange (Name p) r.2])
              else Continue r.1 (logArgs ++ logBody)
          end
        else Continue p logArgs
    | _ :: _ => Continue p logArgs
    end.
Proof.
  unfold handleSignal; simpl.
  destruct (decide (signalNamePropertiesChanged = signalNamePropertiesChanged));
    [|done].
  by destruct (decide (ownerID p ≠ ownerID p)).
Qed.

(** X19. A property change from the owner with the wrong number of
    arguments is logged and then handled all the same.  Without a second
    argument reading it panics: the listener runs its clean-up and the
    panic goes on.  With a bag in second place it is applied whatever
    follows. *)
Theorem X19_malformed_property_change (parse : string → option Z)
    (range : gmap string Variant → list (string * Variant))
    (p : Player) (msgs : list Signal) (closed : bool) :
  let from_owner body := mkSignal (ownerID p) signalNamePropertiesChanged body in
  let iface := VString interfacePathMprisMediaPlayer2Player in
  listener parse range p (from_owner [] :: msgs) closed
  = (p, LogNotEnoughArgs 0 :: teardown p ++ [CloseChannel], Crashed)
  ∧ listener parse range p (from_owner [iface] :: msgs) closed
    = (p, LogNotEnoughArgs 1 :: teardown p ++ [CloseChannel], Crashed)
  ∧ ∀ m extra,
      length extra ≠ 1%nat →
      let r := UpdateProperties parse p (range m) in
      handleSignal parse range p (from_owner (iface :: VDict m :: extra))
      = Continue r.1
          (LogNotEnoughArgs (2 + length extra)
           :: if decide (0 < length r.2)%nat
              then [OnPropertyChange (Name p) r.2] else []).
Proof.
  intros from_owner iface. subst from_owner iface.
  split; [|split].
  - unfold listener; simpl. rewrite handleSignal_fromOwner. simpl.
    by destruct (decide (0 ≠ 3)%nat).
  - unfold listener; simpl. rewrite handleSignal_fromOwner. simpl.
    destruct (decide (interfacePathMprisMediaPlayer2Player
                      = interfacePathMprisMediaPlayer2Player)); [|done].
    by destruct (decide (1 ≠ 3)%nat).
  - intros m extra Hlen. rewrite handleSignal_fromOwner. simpl.
    destruct (decide (interfacePathMprisMediaPlayer2Player
                      = interfacePathMprisMediaPlayer2Player)); [|done].
    destruct (decide (S (S (length extra)) ≠ 3%nat)) as [_|Hn%dec_stable]; [|lia].
    match goal with |- context [decide (0 < ?n)%nat] =>
      destruct (decide (0 < n)%nat) end; reflexivity.
Qed.

Lemma X19_malformed_property_change_witness :
  let msg := mkSignal ":1.42" signalNamePropertiesChanged
               [VString interfacePathMprisMediaPlayer2Player;
                VDict (metadataBatch secondTrack)] in
  handleSignal sampleParse map_to_list freshPlayer msg
  = Continue (UpdateProperties sampleParse freshPlayer
                (map_to_list (metadataBatch secondTrack))).1
      [LogNotEnoughArgs 2; OnPropertyChange "org.mpris.MediaPlayer2.vlc" ["Metadata"]].
Proof.
  destruct (X19_malformed_property_change sampleParse map_to_list freshPlayer [] false)
    as (_ & _ & H).
  apply (H (metadataBatch secondTrack) []). simpl. lia.
Defined.

(** ** The destination pattern, in general *)

Lemma matches_nil_cat a b w :
  matches (ReCat a b) w → w = [] → matches a [] ∧ matches b [].
Proof.
  intros H. inversion H as [| | | |a' b' u v Ha Hb| | | |]; subst.
  intros [-> ->]%app_eq_nil. done.
Qed.

Lemma nullable_matches re : nullable re = true ↔ matches re [].
Proof.
  induction re as [| |r| |cs|a IHa b IHb|a IHa b IHb|a IHa]; simpl.
  - split; [discriminate | intros H; inversion H].
  - split; [intros _; constructor | done].
  - split; [discriminate | intros H; inversion H].
  - split; [discriminate | intros H; inversion H].
  - split; [discriminate | intros H; inversion H].
  - rewrite andb_true_iff, IHa, IHb. split.
    + intros [Ha Hb]. by apply (matches_cat a b [] []).
    + intros H. by apply (matches_nil_cat a b []).
  - rewrite orb_true_iff, IHa, IHb. split.
    + intros [H|H]; [by apply matches_alt_l | by apply matches_alt_r].
    + intros H. inversion H; subst; [by left | by right].
  - split; [intros _; constructor | done].
Qed.

Lemma deriv_sound r re : ∀ w, matches (deriv r re) w → matches re (r :: w).
Proof.
  induction re as [| |r'| |cs|a IHa b IHb|a IHa b IHb|a IHa]; simpl; intros w H.
  - inversion H.
  - inversion H.
  - destruct (N.eqb_spec r r') as [->|]; inversion H; subst. constructor.
  - destruct (N.eqb_spec r 10); inversion H; subst. by constructor.
  - destruct (inClass cs r) eqn:E; inversion H; subst. by constructor.
  - destruct (nullable a) eqn:E.
    + inversion H as [| | | | |a' b' u Hl|a' b' u Hr| |]; subst.
      * inversion Hl as [| | | |a' b' u v Ha Hb| | | |]; subst.
        apply (matches_cat a b (r :: u) v); [by apply IHa | done].
      * apply (matches_cat a b [] (r :: w)); [by apply nullable_matches | by apply IHb].
    + inversion H as [| | | |a' b' u v Ha Hb| | | |]; subst.
      apply (matches_cat a b (r :: u) v); [by apply IHa | done].
  - inversion H; subst; [apply matches_alt_l | apply matches_alt_r]; auto.
  - inversion H as [| | | |a' b' u v Ha Hb| | | |]; subst.
    apply (matches_star_cons a (r :: u) v); [by apply IHa | done].
Qed.

Lemma deriv_complete r re w' :
  matches re w' → ∀ w, w' = r :: w → matches (deriv r re) w.
Proof.
  induction 1 as [|r'|r' Hr|cs r' Hc|a b u v Ha IHa Hb IHb|a b u Ha IHa
                 |a b u Hb IHb|a|a u v Ha IHa Hs IHs]; intros w Heq; simpl.
  - discriminate.
  - injection Heq as -> <-. rewrite N.eqb_refl. constructor.
  - injection Heq as -> <-. destruct (N.eqb_spec r 10); [done | constructor].
  - injection Heq as -> <-. rewrite Hc. constructor.
  - destruct u as [|x u].
    + simpl in Heq. subst v.
      assert (nullable a = true) as -> by (by apply nullable_matches).
      apply matches_alt_r. by apply IHb.
    + simpl in Heq. injection Heq as -> <-.
      assert (matches (ReCat (deriv r a) b) (u ++ v)) as Hc
        by (apply matches_cat; [by apply IHa | done]).
      destruct (nullable a); [by apply matches_alt_l | done].
  - apply matches_alt_l. by apply IHa.
  - apply matches_alt_r. by apply IHb.
  - discriminate.
  - destruct u as [|x u].
    + simpl in Heq. by apply IHs.
    + simpl in Heq. injection Heq as -> <-.
      apply matches_cat; [by apply IHa | done].
Qed.

(** The matcher decides [matches]. *)
Lemma matchRunes_matches w : ∀ re,
  nullable (foldl (λ re r, deriv r re) re w) = true ↔ matches re w.
Proof.
  induction w as [|r w IH]; intros re; simpl.
  - apply nullable_matches.
  - rewrite IH. split; [apply deriv_sound|].
    intros H. by apply (deriv_complete r re (r :: w)).
Qed.

Lemma matches_cat_inv a b w :
  matches (ReCat a b) w ↔ ∃ u v, w = u ++ v ∧ matches a u ∧ matches b v.
Proof.
  split.
  - intros H. inversion H as [| | | |a' b' u v Ha Hb| | | |]; subst. by exists u, v.
  - intros (u & v & -> & Ha & Hb). by constructor.
Qed.

Lemma matches_lits s w : matches (ReLits s) w ↔ w = runes s.
Proof.
  revert w. induction s as [|c s IH]; intros w; simpl.
  - split; [intros H; by inversion H | intros ->; constructor].
  - rewrite matches_cat_inv. split.
    + intros (u & v & -> & Hu & Hv). inversion Hu; subst.
      apply IH in Hv as ->. reflexivity.
    + intros ->. exists [N_of_ascii c], (runes s).
      split; [done|]. split; [constructor | by apply IH].
Qed.

Lemma matches_any_inv w : matches ReAnyCharNotNL w ↔ ∃ r, w = [r] ∧ r ≠ 10%N.
Proof.
  split.
  - intros H. inversion H; subst. by eexists.
  - intros (r & -> & Hr). by constructor.
Qed.

Lemma matches_class_inv cs w :
  matches (ReClass cs) w ↔ ∃ r, w = [r] ∧ inClass cs r = true.
Proof.
  split.
  - intros H. inversion H; subst. by eexists.
  - intros (r & -> & Hr). by constructor.
Qed.

Lemma matches_star_class cs w :
  matches (ReStar (ReClass cs)) w ↔ Forall (λ r, inClass cs r = true) w.
Proof.
  split.
  - intros H. remember (ReStar (ReClass cs)) as re eqn:E.
    induction H as [| | | | | | |a|a u v Ha _ Hs IHs]; try discriminate.
    + constructor.
    + injection E as ->. inversion Ha; subst. constructor; [done|]. by apply IHs.
  - induction 1 as [|r w Hr _ IH]; [constructor|].
    apply (matches_star_cons _ [r] w); [by constructor | done].
Qed.

(** The valid destinations, rune by rune. *)
Lemma valid_destination_runes (s : string) :
  HasValidDestinationName s = true
  ↔ ∃ r1 r2 r3 h t,
      decodeRunes s
      = runes "org" ++ r1 :: runes "mpris" ++ r2 :: runes "MediaPlayer2"
        ++ r3 :: h :: t
      ∧ r1 ≠ 10%N ∧ r2 ≠ 10%N ∧ r3 ≠ 10%N
      ∧ isHead h = true ∧ Forall (λ r, isTail r = true) t.
Proof.
  unfold HasValidDestinationName, matchWhole.
  rewrite matchRunes_matches. unfold destinationRegexp, classHead, classTail.
  split.
  - rewrite !matches_cat_inv.
    intros (u1 & v1 & E1 & H1%matches_lits & H).
    apply matches_cat_inv in H as (u2 & v2 & E2 & (r1 & -> & Hr1)%matches_any_inv & H).
    apply matches_cat_inv in H as (u3 & v3 & E3 & H3%matches_lits & H).
    apply matches_cat_inv in H as (u4 & v4 & E4 & (r2 & -> & Hr2)%matches_any_inv & H).
    apply matches_cat_inv in H as (u5 & v5 & E5 & H5%matches_lits & H).
    apply matches_cat_inv in H as (u6 & v6 & E6 & (r3 & -> & Hr3)%matches_any_inv & H).
    apply matches_cat_inv in H
      as (u7 & v7 & E7 & (h & -> & Hh)%matches_class_inv & Ht%matches_star_class).
    subst. exists r1, r2, r3, h, v7. repeat split; done.
  - intros (r1 & r2 & r3 & h & t & -> & Hr1 & Hr2 & Hr3 & Hh & Ht).
    apply matches_cat; [by apply matches_lits|].
    apply (matches_cat _ _ [r1]); [by constructor|].
    apply matches_cat; [by apply matches_lits|].
    apply (matches_cat _ _ [r2]); [by constructor|].
    apply matches_cat; [by apply matches_lits|].
    apply (matches_cat _ _ [r3]); [by constructor|].
    apply (matches_cat _ _ [h]); [by constructor|].
    by apply matches_star_class.
Qed.

(** X20. A destination is valid exactly when its runes are "org", any
    rune but a newline, "mpris", any rune but a newline, "MediaPlayer2", any
    rune but a newline, then one of [a-zA-Z_-] and any number of
    [a-zA-Z0-9_.-]: the three dots of the pattern are not literal dots. *)
Theorem X20_valid_destinations (s : string) :
  HasValidDestinationName s = true
  ↔ ∃ r1 r2 r3 h t,
      decodeRunes s
      = runes "org" ++ r1 :: runes "mpris" ++ r2 :: runes "MediaPlayer2"
        ++ r3 :: h :: t
      ∧ r1 ≠ 10%N ∧ r2 ≠ 10%N ∧ r3 ≠ 10%N
      ∧ isHead h = true ∧ Forall (λ r, isTail r = true) t.
Proof. exact (valid_destination_runes s). Qed.


Lemma decodeRunes_ascii s :
  Forall (λ r, r < 128)%N (runes s) → decodeRunes s = runes s.
Proof.
  induction s as [|c s IH]; [done|].
  intros [Hc Hs]%Forall_cons. simpl.
  destruct (N.ltb_spec (N_of_ascii c) 128) as [_|]; [|lia].
  by rewrite (IH Hs).
Qed.

Lemma inClass_ascii cs r :
  Forall (λ lohi, lohi.2 < 128)%N cs → inClass cs r = true → (r < 128)%N.
Proof.
  unfold inClass. intros Hcs (lohi & Hin & Hb)%existsb_exists.
  apply andb_true_iff in Hb as [_ Hb%N.leb_le].
  apply list_elem_of_In in Hin.
  apply (proj1 (Forall_forall _ _) Hcs) in Hin. simpl in Hin.
  exact (N.le_lt_trans _ _ _ Hb Hin).
Qed.

Lemma isHead_ascii r : isHead r = true → (r < 128)%N.
Proof. unfold isHead. apply inClass_ascii. by repeat constructor. Qed.

Lemma isTail_ascii r : isTail r = true → (r < 128)%N.
Proof. unfold isTail. apply inClass_ascii. by repeat constructor. Qed.

(** X21. Each of the three dots of the pattern takes any ASCII character
    but a newline: with a slash, a letter or a space in their place a name
    is as valid as with dots, so long as the suffix starts with one of
    [a-zA-Z_-] and goes on with [a-zA-Z0-9_.-]. *)
Theorem X21_dots_are_wildcards (c1 c2 c3 h : ascii) (t : string) :
  Forall (λ c, N_of_ascii c < 128 ∧ N_of_ascii c ≠ 10)%N [c1; c2; c3] →
  isHead (N_of_ascii h) = true →
  Forall (λ r, isTail r = true) (runes t) →
  HasValidDestinationName
    ("org" +:+ String c1 ("mpris" +:+ String c2
       ("MediaPlayer2" +:+ String c3 (String h t)))) = true.
Proof.
  intros Hc Hh Ht.
  apply Forall_cons in Hc as [[H1 N1] Hc].
  apply Forall_cons in Hc as [[H2 N2] Hc].
  apply Forall_cons in Hc as [[H3 N3] _].
  apply valid_destination_runes.
  exists (N_of_ascii c1), (N_of_ascii c2), (N_of_ascii c3), (N_of_ascii h), (runes t).
  split; [|done].
  rewrite decodeRunes_ascii; [reflexivity|].
  assert (N_of_ascii h < 128)%N as Hh'.
  { by apply isHead_ascii. }
  assert (Forall (λ r, r < 128)%N (runes t)) as Ht'.
  { eapply Forall_impl; [exact Ht|]. intros r Hr. by apply isTail_ascii. }
  simpl. repeat (constructor; [first [done | vm_compute; reflexivity]|]).
  exact Ht'.
Qed.

Lemma X21_dots_are_wildcards_witness :
  HasValidDestinationName "org/mpris MediaPlayer2:x-1.y" = true.
Proof.
  apply (X21_dots_are_wildcards "/" " " ":" "x" "-1.y").
  - repeat constructor; try (vm_compute; reflexivity); discriminate.
  - reflexivity.
  - repeat constructor.
Defined.

(** ** Construction *)

Section ConstructorFacts.

Variable parse : string → option Z.
Variable range : gmap string Variant → list (string * Variant).
Variable conn_Object : string → string → BusObject.
Variable call_Body : string → list any.
Variable call_Store : list any → error + gmap string Variant.
Variable FindStringSubmatch : string → list string.

Lemma NewPlayer_cases dest owner r :
  NewPlayer parse range conn_Object call_Body call_Store FindStringSubmatch
    dest owner = Done r →
  (HasValidDestinationName dest = false
   ∧ r = mkConstructed None
           (Some (Errorf_w "player.NewPlayer" ErrInvalidDestination)) [] false)
  ∨ (HasValidDestinationName dest = true
     ∧ ∃ short e,
         np_player r
         = Some (mkPlayer (conn_Object dest objectPathMpris) dest dest short owner
                   None false)
         ∧ np_err r = Some e ∧ np_registered r = false
         ∧ np_ops r = [OpCall (interfacePathDBusProperties +:+ ".GetAll")
                         [VString interfacePathMprisMediaPlayer2Player]])
  ∨ (HasValidDestinationName dest = true
     ∧ ∃ short rawProps,
         call_Store (call_Body dest) = inr rawProps
         ∧ np_player r
           = Some (set_isConnected true
                     (UpdateProperties parse
                        (mkPlayer (conn_Object dest objectPathMpris) dest dest short
                           owner None false)
                        (range rawProps)).1)
         ∧ np_err r = None ∧ np_registered r = true
         ∧ np_ops r = [OpCall (interfacePathDBusProperties +:+ ".GetAll")
                         [VString interfacePathMprisMediaPlayer2Player]]).
Proof.
  unfold NewPlayer.
  destruct (HasValidDestinationName dest) eqn:Ev; simpl.
  - destruct (FindStringSubmatch dest !! 1%nat) as [short|]; [|discriminate].
    destruct (Call _ _ _) as [e|].
    + intros [= <-]. right; left. split; [done|]. by eexists short, _.
    + destruct (call_Store (call_Body dest)) as [e|rawProps] eqn:Es.
      * intros [= <-]. right; left. split; [done|]. by eexists short, _.
      * intros [= <-]. right; right. split; [done|]. by exists short, rawProps.
  - intros [= <-]. by left.
Qed.

End ConstructorFacts.



(** X23. A construction that succeeds made one call on the endpoint's
    object, GetAll on the properties interface for the player interface,
    and went on to start the listener; the player is connected, named after its destination, and its
    cached state is the reply applied to a zero state, so its statuses are
    valid or still empty and its accessors return. *)
Theorem X23_successful_construction (parse : string → option Z)
    (range : gmap string Variant → list (string * Variant))
    (conn_Object : string → string → BusObject)
    (call_Body : string → list any)
    (call_Store : list any → error + gmap string Variant)
    (FindStringSubmatch : string → list string)
    (dest owner : string) (r : Constructed) :
  (∀ m, range_of m (range m)) →
  NewPlayer parse range conn_Object call_Body call_Store FindStringSubmatch
    dest owner = Done r →
  np_err r = None →
  np_registered r = true
  ∧ np_ops r = [OpCall "org.freedesktop.DBus.Properties.GetAll"
                  [VString "org.mpris.MediaPlayer2.Player"]]
  ∧ HasValidDestinationName dest = true
  ∧ ∃ p rawProps,
      np_player r = Some p
      ∧ call_Store (call_Body dest) = inr rawProps
      ∧ isConnected p = true ∧ Name p = dest ∧ destination p = dest
      ∧ ownerID p = owner ∧ obj p = conn_Object dest objectPathMpris
      ∧ state_of p = batchState parse rawProps properties_zero
      ∧ statusesValid (state_of p)
      ∧ GetMetadata p = Returns (props_Media (state_of p))
      ∧ GetPlaybackStatus p = Returns (props_PlaybackStatus (state_of p)).
Proof.
  intros Hrange H He.
  destruct (NewPlayer_cases _ _ _ _ _ _ _ _ _ H)
    as [[Hv ->] | [(Hv & short & e & Hp & He' & Hr & Ho)
                  | (Hv & short & rawProps & Hs & Hp & _ & Hr & Ho)]].
  - discriminate He.
  - by rewrite He in He'.
  - split; [done|]. split; [done|]. split; [done|].
    eexists _, rawProps. split; [exact Hp|]. split; [done|].
    split; [done|]. split; [done|]. split; [done|]. split; [done|].
    split; [done|].
    set (p0 := mkPlayer (conn_Object dest objectPathMpris) dest dest short owner
                 None false).
    assert (state_of (set_isConnected true
                        (UpdateProperties parse p0 (range rawProps)).1)
            = batchState parse rawProps properties_zero) as Hst.
    { change (state_of (UpdateProperties parse p0 (range rawProps)).1
              = batchState parse rawProps (state_of p0)).
      apply UpdateProperties_state, Hrange. }
    split; [exact Hst|]. split; [|done].
    change (statusesValid
              (state_of (UpdateProperties parse p0 (range rawProps)).1)).
    apply UpdateProperties_statusesValid. split; left.
Qed.

Lemma X23_successful_construction_witness :
  let store (body : list any) : error + gmap string Variant :=
    match body with
    | [VDict m] => inr m
    | _ => inl (errors_New "dbus.Store: type mismatch")
    end in
  let built :=
    NewPlayer sampleParse map_to_list (λ _ _, silentObject)
      (λ _, [VDict bogusBatch]) store (λ d, [d; "vlc"])
      "org.mpris.MediaPlayer2.vlc" ":1.42" in
  let r := match built with
           | Done r => r
           | IndexOutOfRange => mkConstructed None None [] false
           end in
  np_registered r = true
  ∧ np_ops r = [OpCall "org.freedesktop.DBus.Properties.GetAll"
                  [VString "org.mpris.MediaPlayer2.Player"]].
Proof.
  intros store built r.
  destruct (X23_successful_construction sampleParse map_to_list
              (λ _ _, silentObject) (λ _, [VDict bogusBatch]) store
              (λ d, [d; "vlc"]) "org.mpris.MediaPlayer2.vlc" ":1.42" r)
    as (Hr & Ho & _).
  - intros m. unfold range_of. reflexivity.
  - reflexivity.
  - reflexivity.
  - split; [exact Hr | exact Ho].
Defined.

(** ** The front end's lookup *)

Lemma separatePlayers_from_spec players name : ∀ selected others,
  separatePlayers_from selected others players name
  = (match last (filter (λ p, name = Name p) players) with
     | Some p => Some p
     | None => selected
     end,
     others ++ filter (λ p, name ≠ Name p) players).
Proof.
  induction players as [|p players IH]; intros selected others; simpl.
  - by rewrite app_nil_r.
  - rewrite !filter_cons. destruct (decide (name = Name p)) as [E|E].
    + rewrite IH. rewrite decide_False by (intros H; by apply H).
      f_equal. rewrite last_cons. by destruct (last _).
    + rewrite IH, decide_True by done. by rewrite <- app_assoc.
Qed.

(** X24. [separatePlayers] returns as selected the last player of the
    list with the wanted name, nil when there is none, and as the others
    every player with another name, in their order.  Earlier players of the
    same name are in neither result. *)
Theorem X24_separate_players (players : list Player) (name : string) :
  let r := separatePlayers players name in
  r.1 = last (filter (λ p, name = Name p) players)
  ∧ r.2 = filter (λ p, name ≠ Name p) players
  ∧ (r.1 = None ↔ ∀ p, p ∈ players → Name p ≠ name)
  ∧ (∀ p, r.1 = Some p → p ∈ players ∧ Name p = name)
  ∧ (length players
     = length r.2 + length (filter (λ p, name = Name p) players))%nat.
Proof.
  intros r. subst r. unfold separatePlayers.
  rewrite separatePlayers_from_spec. simpl.
  set (same := filter (λ p, name = Name p) players).
  assert (match last same with Some p => Some p | None => None end = last same)
    as -> by (by destruct (last same)).
  split; [done|]. split; [done|]. split; [|split].
  - rewrite last_None. subst same. split.
    + intros Hnil p Hin Hn.
      assert (p ∈ filter (λ p, name = Name p) players) as Hp
        by (by apply list_elem_of_filter).
      rewrite Hnil in Hp. by apply elem_of_nil in Hp.
    + intros Hall. induction players as [|q players IH]; [done|].
      rewrite filter_cons. destruct (decide (name = Name q)) as [E|E].
      * destruct (Hall q); [left | done].
      * apply IH. intros p Hin. apply Hall. by right.
  - intros p Hl. apply last_Some in Hl as [l' Hl].
    assert (p ∈ same) as Hp by (rewrite Hl; apply elem_of_app; right; left).
    subst same. by apply list_elem_of_filter in Hp as [-> Hp].
  - subst same. clear. induction players as [|p players IH]; [done|].
    rewrite !filter_cons. destruct (decide (name = Name p)).
    + rewrite decide_False by (intros H; by apply H). simpl. lia.
    + rewrite decide_True by done. simpl. lia.
Qed.

Lemma X24_separate_players_witness :
  let first := playerWith silentObject None in
  let second := playerWith (answering (VBool true)) (Some pausedProperties) in
  second ∈ [first; second] ∧ Name second = "org.mpris.MediaPlayer2.vlc".
Proof.
  intros first second.
  destruct (X24_separate_players [first; second] "org.mpris.MediaPlayer2.vlc")
    as (_ & _ & _ & H & _).
  apply H. reflexivity.
Defined.
